(** * Base layers of gemma3n: [Einsum], [reduce_precision], [RMSNorm]

    A shallow embedding of [gemma/gm/nn/gemma3n/_layers.py].

    The Python file is written against two external collaborators: the
    numeric engine (jax / jax.numpy) and the parameter store (flax.linen).
    Both are modelled here only as far as the three layers use them:

    - arrays are immutable objects living in an object heap; every engine
      primitive reads its operands and allocates a fresh result;
    - the element arithmetic is an interface ([Scalar]); its algebraic laws
      are named propositions, assumed only by the theorems that need them;
    - the parameter collection is a finite map from names to array objects.
*)

From Stdlib Require Import QArith Ascii String.
From stdpp Require Import base option list gmap strings.
From Stdlib Require Import Reals Lra.

Local Open Scope nat_scope.
Local Open Scope list_scope.

(** ** Element types *)

(** The [jnp.dtype]s the model distinguishes. *)
Inductive DType : Type :=
  | int32 | bfloat16 | float16 | float32 | float64.

#[global] Instance DType_eq_dec : EqDecision DType.
Proof. solve_decision. Defined.

Definition is_floating (d : DType) : bool :=
  match d with
  | int32 => false
  | bfloat16 | float16 | float32 | float64 => true
  end.

(** [jnp.finfo(d)]: the fields the source reads. *)
Record finfo : Type := Finfo { nexp : nat; nmant : nat }.

Inductive error : Type :=
  | ValueError          (* jnp.finfo on a non-inexact dtype *)
  | TypeError           (* a lax primitive applied to a dtype it rejects *)
  | IndexError          (* x.shape[-1] on a rank-0 array, axis out of bounds *)
  | ShapeMismatch       (* operands that do not broadcast, einsum sizes *)
  | ScopeParamShapeError
  | ScopeParamNotFoundError
  | ScopeCollectionNotFound  (* the collection is empty and not mutable *)
  | InvalidReference.

Inductive result (A : Type) : Type :=
  | Ok (a : A)
  | Err (e : error).
Arguments Ok {A} a.
Arguments Err {A} e.

Definition is_ok {A} (r : result A) : bool :=
  match r with Ok _ => true | Err _ => false end.

(** [jnp.finfo]: defined for the floating types, a [ValueError] otherwise. *)
Definition jnp_finfo (d : DType) : result finfo :=
  match d with
  | bfloat16 => Ok (Finfo 8 7)
  | float16 => Ok (Finfo 5 10)
  | float32 => Ok (Finfo 8 23)
  | float64 => Ok (Finfo 11 52)
  | int32 => Err ValueError
  end.

(** [jnp.promote_types] on the dtypes above (32-bit default float). *)
Definition promote_types (a b : DType) : DType :=
  match a, b with
  | float64, _ | _, float64 => float64
  | float32, _ | _, float32 => float32
  | bfloat16, float16 | float16, bfloat16 => float32
  | bfloat16, _ | _, bfloat16 => bfloat16
  | float16, _ | _, float16 => float16
  | int32, int32 => int32
  end.

(** Result dtype of [array <op> python_float]: a Python scalar is weakly
    typed, it keeps a floating array's dtype and lifts the others to the
    default float. *)
Definition weak_float_type (d : DType) : DType :=
  if is_floating d then d else float32.

(** ** The element arithmetic of the engine *)

Class Scalar (F : Type) : Type := {
  fzero : F;
  fadd : F -> F -> F;
  fmul : F -> F -> F;
  fdiv : F -> F -> F;
  frsqrt : F -> F;                 (* jax.lax.rsqrt, one fused operation *)
  of_literal : Q -> F;             (* a Python float literal *)
  of_nat : nat -> F;               (* an axis length, as a divisor *)
  fround : nat -> nat -> F -> F;   (* rounding to nexp / nmant bits *)
  truthy : F -> bool;              (* Python's bool(float) *)
}.

(** The literal [1e-06] of [RMSNorm.__call__] and the literal [1.]. *)
Definition eps_literal : Q := 1 # 1000000.
Definition one_literal : Q := 1 # 1.

(** ** Arrays *)

Record tensor (F : Type) : Type := Tensor {
  t_dtype : DType;
  t_shape : list nat;
  t_data : list F;     (* row-major *)
}.
Arguments Tensor {F} _ _ _.
Arguments t_dtype {F} _.
Arguments t_shape {F} _.
Arguments t_data {F} _.

Definition numel (s : list nat) : nat := foldr Nat.mul 1 s.

(** An array is well formed when its buffer has one element per index. *)
Definition wf_tensor {F} (t : tensor F) : Prop :=
  length (t_data t) = numel (t_shape t).

(** ** Index arithmetic of row-major buffers *)

(** All multi-indices of a shape, in row-major order. *)
Fixpoint indices (s : list nat) : list (list nat) :=
  match s with
  | [] => [[]]
  | n :: s' => flat_map (fun i => map (cons i) (indices s')) (seq 0 n)
  end.

(** Flat offset of a multi-index. *)
Fixpoint ravel (s idx : list nat) : nat :=
  match s, idx with
  | n :: s', i :: idx' => i * numel s' + ravel s' idx'
  | _, _ => 0
  end.

(** Broadcasting of two shapes, aligned on the last axis; the lists are
    given innermost axis first. *)
Fixpoint broadcast_rev (r1 r2 : list nat) : option (list nat) :=
  match r1, r2 with
  | [], r => Some r
  | r, [] => Some r
  | a :: r1', b :: r2' =>
      match broadcast_rev r1' r2' with
      | None => None
      | Some r =>
          if Nat.eqb a b then Some (a :: r)
          else if Nat.eqb a 1 then Some (b :: r)
          else if Nat.eqb b 1 then Some (a :: r)
          else None
      end
  end.

Definition broadcast_shapes (s1 s2 : list nat) : option (list nat) :=
  match broadcast_rev (rev s1) (rev s2) with
  | Some r => Some (rev r)
  | None => None
  end.

(** The index an operand of shape [s] is read at, for an index [idx] of the
    broadcast result: the trailing axes of [idx], with the size-1 axes of
    the operand pinned to 0. *)
Definition bcast_index (s idx : list nat) : list nat :=
  zip_with (fun n i => if Nat.eqb n 1 then 0 else i)
           s (drop (length idx - length s) idx).

Section Tensors.
Context {F : Type} `{Scalar F}.

Definition get (data : list F) (k : nat) : F := default fzero (data !! k).

Definition fsum (l : list F) : F := foldr fadd fzero l.

Definition t_map (d : DType) (f : F -> F) (t : tensor F) : tensor F :=
  Tensor d (t_shape t) (map f (t_data t)).

(** [jnp.square] *)
Definition square_t (t : tensor F) : tensor F :=
  t_map (t_dtype t) (fun v => fmul v v) t.

(** [jnp.mean(t, axis=-1, keepdims=True)]: the sum of each row divided by
    the row length; integer inputs give the default float. *)
Definition mean_last_t (t : tensor F) : result (tensor F) :=
  match rev (t_shape t) with
  | [] => Err IndexError
  | d :: lead =>
      Ok (Tensor (weak_float_type (t_dtype t))
                 (rev lead ++ [1])
                 (map (fun i => fdiv (fsum (take d (drop (i * d) (t_data t))))
                                    (of_nat d))
                      (seq 0 (numel (rev lead)))))
  end.

(** [t + q] for a Python float literal [q]. *)
Definition add_literal_t (t : tensor F) (q : Q) : tensor F :=
  t_map (weak_float_type (t_dtype t)) (fun v => fadd v (of_literal q)) t.

(** [q + t] for a Python float literal [q]. *)
Definition radd_literal_t (q : Q) (t : tensor F) : tensor F :=
  t_map (weak_float_type (t_dtype t)) (fun v => fadd (of_literal q) v) t.

(** [t * m] for a Python float [m]. *)
Definition mul_scalar_t (t : tensor F) (m : F) : tensor F :=
  t_map (weak_float_type (t_dtype t)) (fun v => fmul v m) t.

(** [jax.lax.rsqrt]: floating operands only. *)
Definition rsqrt_t (t : tensor F) : result (tensor F) :=
  if is_floating (t_dtype t) then Ok (t_map (t_dtype t) frsqrt t)
  else Err TypeError.

(** [jax.lax.reduce_precision(t, e, m)]: floating operands only. *)
Definition lax_reduce_precision_t (e m : nat) (t : tensor F)
  : result (tensor F) :=
  if is_floating (t_dtype t) then Ok (t_map (t_dtype t) (fround e m) t)
  else Err TypeError.

(** [a * b] with numpy broadcasting and dtype promotion. *)
Definition multiply_t (a b : tensor F) : result (tensor F) :=
  match broadcast_shapes (t_shape a) (t_shape b) with
  | None => Err ShapeMismatch
  | Some so =>
      Ok (Tensor (promote_types (t_dtype a) (t_dtype b)) so
            (map (fun idx =>
                    fmul (get (t_data a) (ravel (t_shape a) (bcast_index (t_shape a) idx)))
                         (get (t_data b) (ravel (t_shape b) (bcast_index (t_shape b) idx))))
                 (indices so)))
  end.

(** [jnp.expand_dims(t, axis=axes)]: the result has one more axis per
    entry of [axes]; the positions listed in [axes] have size 1 and the
    others take the sizes of [t] in order. *)
Fixpoint expand_shape (fuel pos : nat) (axes s : list nat) : list nat :=
  match fuel with
  | 0 => []
  | S fuel' =>
      if bool_decide (pos ∈ axes) then 1 :: expand_shape fuel' (S pos) axes s
      else match s with
           | [] => []
           | n :: s' => n :: expand_shape fuel' (S pos) axes s'
           end
  end.

Definition expand_dims_t (t : tensor F) (axes : list nat) : tensor F :=
  Tensor (t_dtype t)
         (expand_shape (length (t_shape t) + length axes) 0 axes (t_shape t))
         (t_data t).
End Tensors.

(** ** Contraction expressions

    [jnp.einsum(eqn, x, w)] with two operands.  The expression and the two
    operand shapes determine a plan: the result shape and, for every result
    element, the pairs of buffer offsets whose products are summed.  The
    values of the operands play no part in the plan. *)

Inductive label : Type :=
  | LChar (c : ascii)     (* a named axis *)
  | LEll (k : nat).       (* the k-th axis of [...], counted from the right *)

#[global] Instance label_eq_dec : EqDecision label.
Proof. solve_decision. Defined.

Inductive token : Type := TLab (c : ascii) | TEll.

Definition is_letter (c : ascii) : bool :=
  let n := nat_of_ascii c in
  (Nat.leb 65 n && Nat.leb n 90) || (Nat.leb 97 n && Nat.leb n 122).

Fixpoint tokenize (l : list ascii) : option (list token) :=
  match l with
  | [] => Some []
  | "."%char :: "."%char :: "."%char :: r => cons TEll <$> tokenize r
  | " "%char :: r => tokenize r
  | c :: r => if is_letter c then cons (TLab c) <$> tokenize r else None
  end.

(** Splits ["ab,bc->ac"] into the text before ["->"] and the text after. *)
Fixpoint split_arrow (l : list ascii) : list ascii * option (list ascii) :=
  match l with
  | [] => ([], None)
  | "-"%char :: ">"%char :: r => ([], Some r)
  | c :: r => let '(a, b) := split_arrow r in (c :: a, b)
  end.

Fixpoint split_comma (l : list ascii) : list (list ascii) :=
  match l with
  | [] => [[]]
  | ","%char :: r => [] :: split_comma r
  | c :: r => match split_comma r with
              | [] => [[c]]
              | h :: t => (c :: h) :: t
              end
  end.

Definition count_labels (ts : list token) : nat :=
  length (List.filter (fun t => match t with TLab _ => true | TEll => false end) ts).

Definition count_ell (ts : list token) : nat :=
  length (List.filter (fun t => match t with TEll => true | TLab _ => false end) ts).

(** Number of axes an operand of rank [r] gives to its ellipsis. *)
Definition ell_rank (ts : list token) (r : nat) : option nat :=
  match count_ell ts with
  | 0 => if Nat.eqb (count_labels ts) r then Some 0 else None
  | 1 => if Nat.leb (count_labels ts) r then Some (r - count_labels ts) else None
  | _ => None
  end.

Definition resolve (ts : list token) (ne : nat) : list label :=
  flat_map (fun t => match t with
                     | TLab c => [LChar c]
                     | TEll => map LEll (rev (seq 0 ne))
                     end) ts.

Fixpoint insert_label (c : ascii) (l : list ascii) : list ascii :=
  match l with
  | [] => [c]
  | d :: r => if Nat.leb (nat_of_ascii c) (nat_of_ascii d) then c :: l
              else d :: insert_label c r
  end.

(** Implicit mode (no ["->"]): the ellipsis axes, then the named labels that
    occur exactly once, in alphabetical order. *)
Definition implicit_output (lx lw : list label) (ne : nat) : list label :=
  let named := omap (fun l => match l with LChar c => Some c | LEll _ => None end)
                    (lx ++ lw) in
  let once := filter (fun c => length (filter (eq c) named) = 1) named in
  map LEll (rev (seq 0 ne)) ++ map LChar (foldr insert_label [] once).

(** Size of a label: the first size other than 1 among its occurrences. *)
Definition label_size (env : list (label * nat)) (l : label) : nat :=
  match filter (fun p => p.1 = l /\ p.2 <> 1) env with
  | p :: _ => p.2
  | [] => 1
  end.

(** An occurrence agrees with the label's size; an ellipsis axis may also
    have size 1 and be broadcast. *)
Definition size_ok (env : list (label * nat)) (p : label * nat) : bool :=
  Nat.eqb p.2 (label_size env p.1)
  || match p.1 with LEll _ => Nat.eqb p.2 1 | LChar _ => false end.

Fixpoint assigned (asg : list (label * nat)) (l : label) : nat :=
  match asg with
  | [] => 0
  | (l', i) :: r => if bool_decide (l' = l) then i else assigned r l
  end.

Definition operand_offset (ls : list label) (s : list nat)
    (asg : list (label * nat)) : nat :=
  ravel s (zip_with (fun l n => if Nat.eqb n 1 then 0 else assigned asg l) ls s).

Fixpoint dedup_labels (l : list label) : list label :=
  match l with
  | [] => []
  | a :: r => if bool_decide (a ∈ r) then dedup_labels r else a :: dedup_labels r
  end.

Record plan : Type := Plan {
  out_shape : list nat;
  terms : list (list (nat * nat));
}.

Definition einsum_plan (eqn : string) (sx sw : list nat) : result plan :=
  let '(ins, out) := split_arrow (list_ascii_of_string eqn) in
  match split_comma ins with
  | [tx; tw] =>
      match tokenize tx, tokenize tw with
      | Some tx, Some tw =>
          match ell_rank tx (length sx), ell_rank tw (length sw) with
          | Some nx, Some nw =>
              let lx := resolve tx nx in
              let lw := resolve tw nw in
              let ne := Nat.max nx nw in
              let olo := match out with
                         | None => Some (implicit_output lx lw ne)
                         | Some o => (fun t => resolve t ne) <$> tokenize o
                         end in
              match olo with
              | None => Err ValueError
              | Some lo =>
                  let env := zip lx sx ++ zip lw sw in
                  if forallb (size_ok env) env
                     && forallb (fun l => bool_decide (l ∈ lx ++ lw)) lo
                     && bool_decide (NoDup lo)
                  then
                    let ls := filter (fun l => l ∉ lo) (dedup_labels (lx ++ lw)) in
                    let so := map (label_size env) lo in
                    let ss := map (label_size env) ls in
                    Ok (Plan so
                          (map (fun io =>
                                  map (fun is_ =>
                                         let asg := zip lo io ++ zip ls is_ in
                                         (operand_offset lx sx asg,
                                          operand_offset lw sw asg))
                                      (indices ss))
                               (indices so)))
                  else Err ShapeMismatch
              end
          | _, _ => Err ShapeMismatch
          end
      | _, _ => Err ValueError
      end
  | _ => Err ValueError
  end.

Section Contraction.
Context {F : Type} `{Scalar F}.

(** [jnp.einsum(eqn, x, w)] *)
Definition einsum_t (eqn : string) (x w : tensor F) : result (tensor F) :=
  match einsum_plan eqn (t_shape x) (t_shape w) with
  | Err e => Err e
  | Ok p =>
      Ok (Tensor (promote_types (t_dtype x) (t_dtype w)) (out_shape p)
            (map (fun ts =>
                    fsum (map (fun ij => fmul (get (t_data x) ij.1)
                                              (get (t_data w) ij.2)) ts))
                 (terms p)))
  end.
End Contraction.

(** ** Array objects and the parameter scope

    A Python name holds a reference to an array object.  [jax.Array]s are
    immutable: a primitive allocates its result and leaves every existing
    object as it is.  The ['params'] collection of the flax scope maps a
    parameter name to the object that holds its value. *)

Record scope (F : Type) : Type := Scope {
  heap : list (tensor F);
  params : gmap string nat;
  is_mutable : bool;        (* [init] creates parameters, [apply] only reads *)
  rng : nat;                (* the ['params'] PRNG key *)
}.
Arguments Scope {F} _ _ _ _.
Arguments heap {F} _.
Arguments params {F} _.
Arguments is_mutable {F} _.
Arguments rng {F} _.

Definition M (F A : Type) : Type := scope F -> result (A * scope F).

Definition ret {F A} (a : A) : M F A := fun s => Ok (a, s).

Definition bind {F A B} (m : M F A) (k : A -> M F B) : M F B :=
  fun s => match m s with
           | Ok (a, s') => k a s'
           | Err e => Err e
           end.

Notation "'let*' x ':=' m 'in' k" := (bind m (fun x => k))
  (at level 10, x name, m at level 100, k at level 200).

Definition lift {F A} (r : result A) : M F A :=
  fun s => match r with Ok a => Ok (a, s) | Err e => Err e end.

(** Dereferences an array reference. *)
Definition load {F} (a : nat) : M F (tensor F) :=
  fun s => match heap s !! a with
           | Some t => Ok (t, s)
           | None => Err InvalidReference
           end.

(** Allocates a fresh array object. *)
Definition alloc {F} (t : tensor F) : M F nat :=
  fun s => Ok (length (heap s),
               Scope (heap s ++ [t]) (params s) (is_mutable s) (rng s)).

Definition prim1 {F} (f : tensor F -> result (tensor F)) (a : nat) : M F nat :=
  let* t := load a in
  let* v := lift (f t) in
  alloc v.

Definition prim2 {F} (f : tensor F -> tensor F -> result (tensor F))
    (a b : nat) : M F nat :=
  let* t := load a in
  let* u := load b in
  let* v := lift (f t u) in
  alloc v.

(** The engine's functions on array objects. *)
Module jnp.
Section Ops.
Context {F : Type} `{Scalar F}.
Definition square : nat -> M F nat := prim1 (fun t => Ok (square_t t)).
Definition mean_last_keepdims : nat -> M F nat := prim1 mean_last_t.
Definition add_literal (a : nat) (q : Q) : M F nat :=
  prim1 (fun t => Ok (add_literal_t t q)) a.
Definition radd_literal (q : Q) (a : nat) : M F nat :=
  prim1 (fun t => Ok (radd_literal_t q t)) a.
Definition mul_scalar (a : nat) (m : F) : M F nat :=
  prim1 (fun t => Ok (mul_scalar_t t m)) a.
Definition multiply : nat -> nat -> M F nat := prim2 multiply_t.
Definition expand_dims (a : nat) (axes : list nat) : M F nat :=
  prim1 (fun t => Ok (expand_dims_t t axes)) a.
Definition einsum (eqn : string) : nat -> nat -> M F nat :=
  prim2 (einsum_t eqn).
Definition finfo (d : DType) : M F finfo := lift (jnp_finfo d).
(** [x.dtype] and [x.shape] *)
Definition dtype_of (a : nat) : M F DType :=
  let* t := load a in ret (t_dtype t).
Definition shape_of (a : nat) : M F (list nat) :=
  let* t := load a in ret (t_shape t).
End Ops.
End jnp.

Module lax.
Section Ops.
Context {F : Type} `{Scalar F}.
Definition rsqrt : nat -> M F nat := prim1 rsqrt_t.
Definition reduce_precision (a : nat) (e m : nat) : M F nat :=
  prim1 (lax_reduce_precision_t e m) a.
End Ops.
End lax.

(** ** flax: initializers and [self.param] *)

(** An initializer maps a PRNG key, a shape and an optional dtype to an
    array value ([None]: the initializer's own default dtype). *)
Definition Initializer (F : Type) : Type :=
  nat -> list nat -> option DType -> tensor F.

(** An initializer honours its protocol when the array it returns has the
    requested shape and a buffer of that size. *)
Definition initializer_ok {F} (init : Initializer F) : Prop :=
  forall key s dt, t_shape (init key s dt) = s /\ wf_tensor (init key s dt).

Module initializers.
Section Init.
Context {F : Type} `{Scalar F}.
(** [nn.initializers.zeros_init()] *)
Definition zeros_init : Initializer F :=
  fun _ s dt => Tensor (default float32 dt) s (replicate (numel s) fzero).
(** [nn.initializers.normal()]; [sample key i] is the i-th draw. *)
Definition normal (sample : nat -> nat -> F) : Initializer F :=
  fun key s dt => Tensor (default float32 dt) s
                         (map (sample key) (seq 0 (numel s))).
End Init.
End initializers.

(** The error for a parameter that is missing from a collection that is
    not mutable: the collection itself is reported when it is empty. *)
Definition missing_param_error (ps : gmap string nat) : error :=
  if bool_decide (ps = ∅) then ScopeCollectionNotFound
  else ScopeParamNotFoundError.

(** [self.param(name, init_fn, shape, dtype)]: an existing parameter is
    returned after its shape is compared with the shape the initializer
    would give; a missing one is created when the collection is mutable. *)
Definition param {F} (name : string) (init_fn : Initializer F)
    (shape : list nat) (dt : option DType) : M F nat :=
  fun s =>
    match params s !! name with
    | Some a =>
        match heap s !! a with
        | None => Err InvalidReference
        | Some v =>
            if bool_decide (t_shape v = t_shape (init_fn 0 shape dt))
            then Ok (a, s)
            else Err ScopeParamShapeError
        end
    | None =>
        if is_mutable s then
          Ok (length (heap s),
              Scope (heap s ++ [init_fn (rng s) shape dt])
                    (<[name := length (heap s)]> (params s))
                    (is_mutable s) (rng s))
        else Err (missing_param_error (params s))
    end.

(** ** The source file *)

(** [class Einsum(nn.Module)] *)
Module Einsum.
Record config (F : Type) : Type := Config {
  shape : list nat;
  weight_name : string;
  initializer : Initializer F;
  dtype : option DType;
  w_scale : option F;
}.
Arguments Config {F} _ _ _ _ _.
Arguments shape {F} _.
Arguments weight_name {F} _.
Arguments initializer {F} _.
Arguments dtype {F} _.
Arguments w_scale {F} _.

Definition __call__ {F} `{Scalar F} (self : config F) (eqn : string) (x : nat)
  : M F nat :=
  let* w := param (weight_name self) (initializer self) (shape self)
                  (match dtype self with Some d => Some d | None => None end) in
  let* w := match w_scale self with
            | Some m => if truthy m then jnp.mul_scalar w m else ret w
            | None => ret w
            end in
  jnp.einsum eqn x w.
End Einsum.

(** [def reduce_precision(x)] *)
Definition reduce_precision {F} `{Scalar F} (x : nat) : M F nat :=
  let* d := jnp.dtype_of x in
  let* finfo := jnp.finfo d in
  lax.reduce_precision x (nexp finfo) (nmant finfo).

(** [class RMSNorm(nn.Module)] *)
Module RMSNorm.
Record config (F : Type) : Type := Config {
  with_scale : bool;
  scale_init : Initializer F;
  scale_plus_one : bool;
  guard_against_excess_precision : bool;
}.
Arguments Config {F} _ _ _ _.
Arguments with_scale {F} _.
Arguments scale_init {F} _.
Arguments scale_plus_one {F} _.
Arguments guard_against_excess_precision {F} _.

Definition __call__ {F} `{Scalar F} (self : config F) (x : nat) : M F nat :=
  let* x := if guard_against_excess_precision self
            then reduce_precision x else ret x in
  let* sq := jnp.square x in
  let* var := jnp.mean_last_keepdims sq in
  let* shifted := jnp.add_literal var eps_literal in
  let* inv := lax.rsqrt shifted in
  let* normed_inputs := jnp.multiply x inv in
  if with_scale self then
    let* x_shape := jnp.shape_of x in
    let* d := lift (match last x_shape with
                    | Some d => Ok d
                    | None => Err IndexError
                    end) in
    let* scale := param "scale" (scale_init self) [d] None in
    let* scale := jnp.expand_dims scale (seq 0 (length x_shape - 1)) in
    let* mult := if scale_plus_one self
                 then jnp.radd_literal one_literal scale else ret scale in
    jnp.multiply normed_inputs mult
  else ret normed_inputs.
End RMSNorm.

(** ** Frames of the object heap *)

Definition extend {F} (s : scope F) (v : tensor F) : scope F :=
  Scope (heap s ++ [v]) (params s) (is_mutable s) (rng s).

(** [preserved s s']: every array object of [s] is still there, unchanged,
    in [s']. *)
Definition preserved {F} (s s' : scope F) : Prop :=
  forall a t, heap s !! a = Some t -> heap s' !! a = Some t.

(** ** Laws of the element arithmetic

    Each law is a proposition about a [Scalar] instance; a theorem names the
    ones it relies on. *)
Section Laws.
Context {F : Type} `{Scalar F}.

(** Rounding to a format leaves a value of that format as it is. *)
Definition round_idempotent : Prop :=
  forall e m v, fround e m (fround e m v) = fround e m v.

Definition mul_one_r : Prop :=
  forall v, fmul v (of_literal one_literal) = v.

Definition one_plus_zero : Prop :=
  fadd (of_literal one_literal) fzero = of_literal one_literal.

Definition mul_zero_l : Prop := forall v, fmul fzero v = fzero.

Definition mul_assoc : Prop :=
  forall a b c, fmul a (fmul b c) = fmul (fmul a b) c.

Definition mul_add_distr_r : Prop :=
  forall a b c, fmul (fadd a b) c = fadd (fmul a c) (fmul b c).

Definition truthy_one : Prop := truthy (of_literal one_literal) = true.

Definition truthy_nonzero : Prop :=
  forall v, truthy v = true <-> v <> fzero.
End Laws.

(** ** The values the layers compute

    The arrays and scopes that appear in the statements below, as
    functions of the input array and of the configuration. *)

Section RMSNormValues.
Context {F : Type} `{Scalar F}.
Implicit Types (s : scope F) (t n v : tensor F) (self : RMSNorm.config F).

(** The array [reduce_precision] returns for an input array [t] whose
    dtype has the format [fi]. *)
Definition reduced (fi : finfo) t : tensor F :=
  t_map (t_dtype t) (fround (nexp fi) (nmant fi)) t.

(** The array the normalization works on: the input, or the input with
    its precision reduced. *)
Definition guarded self t : result (tensor F) :=
  if RMSNorm.guard_against_excess_precision self then
    match jnp_finfo (t_dtype t) with
    | Ok fi => Ok (reduced fi t)
    | Err e => Err e
    end
  else Ok t.

(** [x * rsqrt(mean(x^2, last axis, kept as size 1) + 1e-6)], in the
    words of the specification. *)
Definition rms_formula t : result (tensor F) :=
  match mean_last_t (square_t t) with
  | Err e => Err e
  | Ok var =>
      match rsqrt_t (add_literal_t var (1 # 1000000)) with
      | Err e => Err e
      | Ok inv => multiply_t t inv
      end
  end.

(** Element [k] of [x * rsqrt(mean(x^2) + 1e-6)] for a buffer [data] whose
    rows have length [d]: the element of [x], times the reciprocal square
    root of the mean of the squares of its row plus 1/1000000. *)
Definition rms_element (d : nat) (data : list F) (k : nat) : F :=
  fmul (get data k)
       (frsqrt (fadd (fdiv (fsum (take d (drop (k / d * d)
                                            (map (fun a : F => fmul a a) data))))
                           (of_nat d))
                     (of_literal (1 # 1000000)))).

(** The multiplier built from the value of the [scale] parameter. *)
Definition scale_multiplier self (rank : nat) (scale : tensor F) : tensor F :=
  let expanded := expand_dims_t scale (seq 0 (rank - 1)) in
  if RMSNorm.scale_plus_one self
  then radd_literal_t one_literal expanded else expanded.

(** The scope after the optional precision reduction. *)
Definition guard_scope self s (t' : tensor F) : scope F :=
  if RMSNorm.guard_against_excess_precision self then extend s t' else s.

(** The scope after the five primitives of the normalization. *)
Definition normalized_scope s (t' var inv n : tensor F) : scope F :=
  extend (extend (extend (extend (extend s
    (square_t t')) var) (add_literal_t var eps_literal)) inv) n.

(** Outcome of the [with_scale] branch, from the scope [s] the
    normalization left, for the input shape [sh] and the normalized
    array [n]. *)
Definition scale_tail self (sh : list nat) n s : result (nat * scope F) :=
  match last sh with
  | None => Err IndexError
  | Some d =>
      match param "scale" (RMSNorm.scale_init self) [d] None s with
      | Err e => Err e
      | Ok (a, s2) =>
          match heap s2 !! a with
          | None => Err InvalidReference
          | Some v =>
              let expanded := expand_dims_t v (seq 0 (length sh - 1)) in
              let s3 := extend s2 expanded in
              let s4 := if RMSNorm.scale_plus_one self
                        then extend s3 (radd_literal_t one_literal expanded)
                        else s3 in
              match multiply_t n (scale_multiplier self (length sh) v) with
              | Err e => Err e
              | Ok out => Ok (length (heap s4), extend s4 out)
              end
          end
      end
  end.

(** The [scale] parameter can be provided in scope [s] for an input of
    shape [sh]: it is stored with the shape (d,) of the last axis, or it
    is missing and the collection is mutable. *)
Definition scale_available s (sh : list nat) : Prop :=
  match params s !! "scale" with
  | None => is_mutable s = true
  | Some a => exists v, heap s !! a = Some v
                        /\ (forall d, last sh = Some d -> t_shape v = [d])
  end.
End RMSNormValues.

Section EinsumValues.
Context {F : Type} `{Scalar F}.
Implicit Types (s : scope F) (t w : tensor F) (self : Einsum.config F) (m : F).

(** The weight handed to the contraction: the retrieved one, multiplied
    by [w_scale] when [if self.w_scale:] takes the branch. *)
Definition effective_weight self w : tensor F :=
  match Einsum.w_scale self with
  | Some m => if truthy m then mul_scalar_t w m else w
  | None => w
  end.

(** The scope once [w *= self.w_scale] has or has not run. *)
Definition scaled_scope self s w : scope F :=
  match Einsum.w_scale self with
  | Some m => if truthy m then extend s (mul_scalar_t w m) else s
  | None => s
  end.

(** The same layer with the multiplier [m] configured. *)
Definition with_multiplier self m : Einsum.config F :=
  Einsum.Config (Einsum.shape self) (Einsum.weight_name self)
                (Einsum.initializer self) (Einsum.dtype self) (Some m).
End EinsumValues.

(** ** The exact engine: real-number arithmetic *)

(** Rounding in the exact engine: the value is cut to [m] fractional binary
    digits; the exponent width [e] puts no bound on a real number. *)
Definition round_real (e m : nat) (v : R) : R :=
  (IZR (Zfloor (v * 2 ^ m)) / 2 ^ m)%R.

#[global] Instance real_scalar : Scalar R := {
  fzero := 0%R;
  fadd := Rplus;
  fmul := Rmult;
  fdiv := Rdiv;
  frsqrt := fun v => (/ sqrt v)%R;
  of_literal := Q2R;
  of_nat := INR;
  fround := round_real;
  truthy := fun v => if Req_dec_T v 0%R then false else true;
}.

(** ** Inputs for the examples, over the exact engine *)

Section RealInstances.
Local Open Scope R_scope.

(** One row [3; 4; 0] of the specification's scenario, as a float32 array
    of shape (1, 3), in an empty mutable scope. *)
Definition row : tensor R := Tensor float32 [1; 3]%nat [3; 4; 0].
Definition row_scope : scope R := Scope [row] ∅ true 0%nat.

Definition unscaled : RMSNorm.config R :=
  RMSNorm.Config false initializers.zeros_init true false.
Definition scaled_plus_one : RMSNorm.config R :=
  RMSNorm.Config true initializers.zeros_init true false.
Definition scaled_plain : RMSNorm.config R :=
  RMSNorm.Config true initializers.zeros_init false false.

(** A stored float32 weight [1] of shape (1,) and an input [1]. *)
Definition dot_scope : scope R :=
  Scope [Tensor float32 [1%nat] [1]; Tensor float32 [1%nat] [1]]
        {["w" := 1%nat]} false 0%nat.
Definition dot_layer : Einsum.config R :=
  Einsum.Config [1%nat] "w" initializers.zeros_init None None.

(** A bfloat16 input and a layer with no dtype configured. *)
Definition bf16_scope : scope R :=
  Scope [Tensor bfloat16 [1%nat] [1]] ∅ true 0%nat.
Definition default_layer : Einsum.config R :=
  Einsum.Config [1%nat] "w" (initializers.normal (fun _ _ => 1)) None None.

(** [dot_scope] after a call of [dot_layer] with the multiplier 2. *)
Definition dot_scope_after : scope R :=
  Scope [Tensor float32 [1%nat] [1]; Tensor float32 [1%nat] [1];
         Tensor float32 [1%nat] [fmul 1 2];
         Tensor float32 [] [fadd (fmul 1 (fmul 1 2)) fzero]]
        {["w" := 1%nat]} false 0%nat.

(** [bf16_scope] after a call of [default_layer]. *)
Definition bf16_scope_after : scope R :=
  Scope [Tensor bfloat16 [1%nat] [1]; Tensor float32 [1%nat] [1];
         Tensor float32 [] [fadd (fmul 1 1) fzero]]
        {["w" := 1%nat]} true 0%nat.
End RealInstances.

(** An input for the examples: a float32 array of shape (2,) in a scope
    that holds nothing else. *)
Definition sample_scope : scope R :=
  Scope [Tensor float32 [2] [1%R; 2%R]] ∅ true 0.

(** ** Well-formed scopes and the value of a call

    A scope is in order when every parameter name refers to an array object
    that exists, and every array object has one buffer element per index.
    Scopes built by calls of the layers from an empty scope are of this
    kind. *)

Definition scope_ok {F} (s : scope F) : Prop :=
  forall name a, params s !! name = Some a -> a < length (heap s).

Definition heap_wf {F} (s : scope F) : Prop :=
  Forall wf_tensor (heap s).

(** The array [self.param(name, init_fn, shape, dt)] provides in scope [s]:
    the stored one if its shape passes the check, the initial value if the
    name is missing and the collection is mutable. *)
Definition param_value {F} (name : string) (init_fn : Initializer F)
    (shape : list nat) (dt : option DType) (s : scope F) : result (tensor F) :=
  match params s !! name with
  | Some a =>
      match heap s !! a with
      | None => Err InvalidReference
      | Some v =>
          if bool_decide (t_shape v = t_shape (init_fn 0 shape dt))
          then Ok v else Err ScopeParamShapeError
      end
  | None =>
      if is_mutable s then Ok (init_fn (rng s) shape dt)
      else Err (missing_param_error (params s))
  end.

(** The reference [self.param] returns and the scope it leaves. *)
Definition param_addr {F} (name : string) (s : scope F) : nat :=
  match params s !! name with
  | Some a => a
  | None => length (heap s)
  end.

Definition param_scope {F} (name : string) (v : tensor F) (s : scope F)
  : scope F :=
  match params s !! name with
  | Some _ => s
  | None => Scope (heap s ++ [v]) (<[name := length (heap s)]> (params s))
                  (is_mutable s) (rng s)
  end.

Section CallValues.
Context {F : Type} `{Scalar F}.

(** The array [RMSNorm.__call__] returns for the input array [t] in scope
    [s], or the error it raises. *)
Definition rms_value (self : RMSNorm.config F) (s : scope F) (t : tensor F)
  : result (tensor F) :=
  match guarded self t with
  | Err e => Err e
  | Ok t' =>
      match rms_formula t' with
      | Err e => Err e
      | Ok n =>
          if RMSNorm.with_scale self then
            match last (t_shape t') with
            | None => Err IndexError
            | Some d =>
                match param_value "scale" (RMSNorm.scale_init self) [d] None s with
                | Err e => Err e
                | Ok v =>
                    multiply_t n (scale_multiplier self (length (t_shape t')) v)
                end
            end
          else Ok n
      end
  end.

(** The array [Einsum.__call__] returns for the input array [t] in scope
    [s], or the error it raises. *)
Definition einsum_value (self : Einsum.config F) (eqn : string) (s : scope F)
    (t : tensor F) : result (tensor F) :=
  match param_value (Einsum.weight_name self) (Einsum.initializer self)
                    (Einsum.shape self) (Einsum.dtype self) s with
  | Err e => Err e
  | Ok w => einsum_t eqn t (effective_weight self w)
  end.

(** The factor the learned scale contributes at position [j] of the last
    axis: [1 + scale_j] or [scale_j]. *)
Definition scale_factor (self : RMSNorm.config F) (v : tensor F) (j : nat) : F :=
  if RMSNorm.scale_plus_one self
  then fadd (of_literal one_literal) (get (t_data v) j)
  else get (t_data v) j.
End CallValues.

(** ** Scopes left by calls on one row

    The scope after [RMSNorm] with a zero-initialized scale and
    [scale_plus_one] has run on the float32 row [a; b; c] of shape (1, 3)
    in an empty mutable scope, and the scope after [reduce_precision] on
    that row. *)
Section RowRuns.
Context {F : Type} `{Scalar F}.

Definition row_mean (a b c : F) : F :=
  fdiv (fadd (fmul a a) (fadd (fmul b b) (fadd (fmul c c) fzero))) (of_nat 3).

Definition row_inv (a b c : F) : F :=
  frsqrt (fadd (row_mean a b c) (of_literal (1 # 1000000))).

Definition scaled_run_scope (a b c : F) : scope F :=
  let one := fadd (of_literal one_literal) fzero in
  Scope [Tensor float32 [1; 3] [a; b; c];
         Tensor float32 [1; 3] [fmul a a; fmul b b; fmul c c];
         Tensor float32 [1; 1] [row_mean a b c];
         Tensor float32 [1; 1] [fadd (row_mean a b c) (of_literal (1 # 1000000))];
         Tensor float32 [1; 1] [row_inv a b c];
         Tensor float32 [1; 3] [fmul a (row_inv a b c); fmul b (row_inv a b c);
                                fmul c (row_inv a b c)];
         Tensor float32 [3] [fzero; fzero; fzero];
         Tensor float32 [1; 3] [fzero; fzero; fzero];
         Tensor float32 [1; 3] [one; one; one];
         Tensor float32 [1; 3] [fmul (fmul a (row_inv a b c)) one;
                                fmul (fmul b (row_inv a b c)) one;
                                fmul (fmul c (row_inv a b c)) one]]
        {["scale" := 6]} true 0.

Definition unscaled_run_scope (a b c : F) : scope F :=
  Scope [Tensor float32 [1; 3] [a; b; c];
         Tensor float32 [1; 3] [fmul a a; fmul b b; fmul c c];
         Tensor float32 [1; 1] [row_mean a b c];
         Tensor float32 [1; 1] [fadd (row_mean a b c) (of_literal (1 # 1000000))];
         Tensor float32 [1; 1] [row_inv a b c];
         Tensor float32 [1; 3] [fmul a (row_inv a b c); fmul b (row_inv a b c);
                                fmul c (row_inv a b c)]]
        ∅ true 0.

Definition reduced_run_scope (a b c : F) : scope F :=
  Scope [Tensor float32 [1; 3] [a; b; c];
         Tensor float32 [1; 3] [fround 8 23 a; fround 8 23 b; fround 8 23 c]]
        ∅ true 0.
End RowRuns.

(** The layer of the examples with the precision guard on. *)
Definition guarded_plus_one : RMSNorm.config R :=
  RMSNorm.Config true initializers.zeros_init true true.

(** ** An all-zero scale, and the array a call returns *)

Section ZeroScaleValues.
Context {F : Type} `{Scalar F}.

(** In scope [s] the [scale] parameter of the layer is a vector of zeros of
    the length of the last axis of an input of shape [sh]: it is stored as
    such, or it is missing from a mutable collection and the initializer
    gives zeros. *)
Definition scale_is_zero (self : RMSNorm.config F) (s : scope F)
    (sh : list nat) : Prop :=
  forall d, last sh = Some d ->
    exists v,
      param_value "scale" (RMSNorm.scale_init self) [d] None s = Ok v
      /\ t_shape v = [d]
      /\ t_data v = replicate d fzero.

(** The factor every normalized element is multiplied by when [scale]
    holds zeros: [1. + 0] with [scale_plus_one], [0] without. *)
Definition zero_scale_factor (self : RMSNorm.config F) : F :=
  if RMSNorm.scale_plus_one self
  then fadd (of_literal one_literal) fzero else fzero.

(** The array a call returned, if it returned. *)
Definition result_array (m : result (nat * scope F)) : option (tensor F) :=
  match m with
  | Ok (r, s') => heap s' !! r
  | Err _ => None
  end.
End ZeroScaleValues.

(** ** An engine with NaN

    [Some v] is the number [v]; [None] is a NaN, which every operation
    propagates (so NaN * 0 is NaN).  A division by zero and the reciprocal
    square root of a number that is not positive also give [None] here. *)

Definition lift2 (f : R -> R -> R) (a b : option R) : option R :=
  match a, b with
  | Some x, Some y => Some (f x y)
  | _, _ => None
  end.

Definition nan_scalar : Scalar (option R) := {|
  fzero := Some 0%R;
  fadd := lift2 Rplus;
  fmul := lift2 Rmult;
  fdiv := fun a b =>
            match a, b with
            | Some x, Some y => if Req_dec_T y 0%R then None else Some (x / y)%R
            | _, _ => None
            end;
  frsqrt := fun a =>
              match a with
              | Some x => if Rlt_dec 0%R x then Some (/ sqrt x)%R else None
              | None => None
              end;
  of_literal := fun q => Some (Q2R q);
  of_nat := fun n => Some (INR n);
  fround := fun e m a =>
              match a with Some x => Some (round_real e m x) | None => None end;
  truthy := fun a =>
              match a with
              | Some x => if Req_dec_T x 0%R then false else true
              | None => true
              end;
|}.

(** ** An engine with float32 literals

    The conversion of a Python float literal to float32: round to nearest,
    ties to even, on 24 significant bits (the exponent range is not
    modelled).  The arithmetic on the values is the exact one. *)

Definition f32_round (q : Q) : Q :=
  let n := Qnum q in
  let d := Zpos (Qden q) in
  if Z.eqb n 0 then 0%Q else
  let a := Z.abs n in
  let e0 := (Z.log2 a - Z.log2 d - 23)%Z in
  let num0 := if Z.leb 0 e0 then a else (a * 2 ^ (- e0))%Z in
  let den := if Z.leb 0 e0 then (d * 2 ^ e0)%Z else d in
  let low := Z.ltb num0 (den * 2 ^ 23) in
  let num := if low then (2 * num0)%Z else num0 in
  let e := if low then (e0 - 1)%Z else e0 in
  let m := (num / den)%Z in
  let r := (num mod den)%Z in
  let m' := if Z.ltb (2 * r) den then m
            else if Z.ltb den (2 * r) then (m + 1)%Z
            else if Z.even m then m else (m + 1)%Z in
  let signed := (Z.sgn n * m')%Z in
  if Z.leb 0 e then inject_Z (signed * 2 ^ e)
  else Qmake signed (Z.to_pos (2 ^ (- e))).

Definition f32_literal_scalar : Scalar R := {|
  fzero := 0%R;
  fadd := Rplus;
  fmul := Rmult;
  fdiv := Rdiv;
  frsqrt := fun v => (/ sqrt v)%R;
  of_literal := fun q => Q2R (f32_round q);
  of_nat := INR;
  fround := round_real;
  truthy := fun v => if Req_dec_T v 0%R then false else true;
|}.

(** ** Order on the elements

    [fle] and [flt] compare two elements; [is_number a] says that [a] is
    not a NaN.  The laws below hold for the reals; a floating-point format
    has them on the numbers that are not NaN (infinities included) as long
    as the row length is a finite number of the format. *)

Class Ordered (F : Type) : Type := {
  fle : F -> F -> Prop;
  flt : F -> F -> Prop;
  is_number : F -> Prop;
}.

Record order_laws {F : Type} `{Scalar F} `{Ordered F} : Prop := {
  zero_number : is_number fzero /\ fle fzero fzero;
  square_nonneg : forall a, is_number a ->
    is_number (fmul a a) /\ fle fzero (fmul a a);
  add_nonneg : forall a b,
    is_number a -> fle fzero a -> is_number b -> fle fzero b ->
    is_number (fadd a b) /\ fle fzero (fadd a b);
  div_count_nonneg : forall a n,
    0 < n -> is_number a -> fle fzero a ->
    is_number (fdiv a (of_nat n)) /\ fle fzero (fdiv a (of_nat n));
  add_literal_lower : forall a,
    is_number a -> fle fzero a ->
    fle (of_literal eps_literal) (fadd a (of_literal eps_literal));
  literal_positive : flt fzero (of_literal eps_literal);
  lt_le_trans : forall a b c, flt a b -> fle b c -> flt a c;
  round_number : forall e m a, is_number a -> is_number (fround e m a);
}.
Arguments order_laws F {_ _}.

(** A number that is not negative. *)
Definition nonneg_number {F : Type} `{Scalar F} `{Ordered F} (a : F) : Prop :=
  is_number a /\ fle fzero a.

#[global] Instance real_ordered : Ordered R := {
  fle := Rle;
  flt := Rlt;
  is_number := fun _ => True;
}.

(** ** More inputs for the examples *)

(** One bfloat16 row of shape (1, 3) in an empty mutable scope. *)
Definition bf16_row_scope : scope R :=
  Scope [Tensor bfloat16 [1; 3] [3%R; 4%R; 0%R]] ∅ true 0.

(** One float32 row of zeros of shape (1, 3). *)
Definition zero_row_scope : scope R :=
  Scope [Tensor float32 [1; 3] [0%R; 0%R; 0%R]] ∅ true 0.

(** One float32 element that is a NaN, as an array of shape (1, 1). *)
Definition nan_scope : scope (option R) :=
  Scope [Tensor float32 [1; 1] [None]] ∅ true 0.

(** The unscaled layer over the engine with float32 literals. *)
Definition f32_unscaled : RMSNorm.config R :=
  RMSNorm.Config false (@initializers.zeros_init R f32_literal_scalar)
                 true false.

(** The layer with a plain zero-initialized scale over the engine with
    NaN. *)
Definition nan_scaled_plain : RMSNorm.config (option R) :=
  RMSNorm.Config true (@initializers.zeros_init (option R) nan_scalar)
                 false false.

(** * Properties *)

Example plan_matmul :
  einsum_plan "...d,dh->...h" [2; 2] [2; 3]
  = Ok (Plan [2; 3]
          [[(0, 0); (1, 3)]; [(0, 1); (1, 4)]; [(0, 2); (1, 5)];
           [(2, 0); (3, 3)]; [(2, 1); (3, 4)]; [(2, 2); (3, 5)]]).
Proof. vm_compute. reflexivity. Qed.

Example plan_scenario_shape :
  out_shape <$> (match einsum_plan "...d,dh->...h" [2; 4] [4; 8] with
                 | Ok p => Some p | Err _ => None end) = Some [2; 8].
Proof. vm_compute. reflexivity. Qed.

Example plan_dot : einsum_plan "i,i->" [3] [3] = Ok (Plan [] [[(0, 0); (1, 1); (2, 2)]]).
Proof. vm_compute. reflexivity. Qed.

Example plan_implicit : einsum_plan "ij,jk" [1; 2] [2; 1] = Ok (Plan [1; 1] [[(0, 0); (1, 1)]]).
Proof. vm_compute. reflexivity. Qed.

Example plan_mismatch : einsum_plan "ij,jk->ik" [1; 2] [3; 1] = Err ShapeMismatch.
Proof. vm_compute. reflexivity. Qed.

(** ** Running the engine primitives *)

Section Running.
Context {F : Type} `{Scalar F}.
Implicit Types (s : scope F) (t v : tensor F).

Lemma lookup_extend_old s v a t :
  heap s !! a = Some t -> heap (extend s v) !! a = Some t.
Proof. intros Ha. cbn. by apply lookup_app_l_Some. Qed.

Lemma lookup_extend_new s v : heap (extend s v) !! length (heap s) = Some v.
Proof. cbn. by rewrite list_lookup_middle. Qed.

Lemma preserved_refl s : preserved s s.
Proof. by intros a t. Qed.

Lemma preserved_trans s1 s2 s3 :
  preserved s1 s2 -> preserved s2 s3 -> preserved s1 s3.
Proof. intros H12 H23 a t Ha. by apply H23, H12. Qed.

Lemma preserved_extend s v : preserved s (extend s v).
Proof. intros a t. apply lookup_extend_old. Qed.

Lemma bind_eq {A B} (m : M F A) (k : A -> M F B) s :
  bind m k s = match m s with Ok (a, s') => k a s' | Err e => Err e end.
Proof. reflexivity. Qed.

Lemma prim1_eq (f : tensor F -> result (tensor F)) a s t :
  heap s !! a = Some t ->
  prim1 f a s = match f t with
                | Ok v => Ok (length (heap s), extend s v)
                | Err e => Err e
                end.
Proof.
  intros Ha. unfold prim1, bind, load, lift, alloc, extend.
  rewrite Ha. by destruct (f t).
Qed.

Lemma prim2_eq (f : tensor F -> tensor F -> result (tensor F)) a b s t u :
  heap s !! a = Some t -> heap s !! b = Some u ->
  prim2 f a b s = match f t u with
                  | Ok v => Ok (length (heap s), extend s v)
                  | Err e => Err e
                  end.
Proof.
  intros Ha Hb. unfold prim2, bind, load, lift, alloc, extend.
  rewrite Ha, Hb. by destruct (f t u).
Qed.

Lemma reduce_precision_eq x s t :
  heap s !! x = Some t ->
  reduce_precision x s
  = match jnp_finfo (t_dtype t) with
    | Err e => Err e
    | Ok fi => Ok (length (heap s),
                   extend s (t_map (t_dtype t) (fround (nexp fi) (nmant fi)) t))
    end.
Proof.
  intros Hx.
  unfold reduce_precision, jnp.dtype_of, jnp.finfo, lax.reduce_precision,
    prim1, bind, load, lift, alloc, ret, lax_reduce_precision_t, extend.
  rewrite Hx. destruct (t_dtype t) eqn:Hd; cbn; rewrite ?Hx, ?Hd; reflexivity.
Qed.
End Running.

(** ** The laws hold in the exact engine *)

Lemma real_round_idempotent : @round_idempotent R real_scalar.
Proof.
  intros e m v. cbn. unfold round_real.
  assert (Hpow : (2 ^ m <> 0)%R) by (apply pow_nonzero; lra).
  replace (IZR (Zfloor (v * 2 ^ m)) / 2 ^ m * 2 ^ m)%R
    with (IZR (Zfloor (v * 2 ^ m))) by (field; exact Hpow).
  by rewrite ZfloorZ.
Qed.

Lemma real_mul_one_r : @mul_one_r R real_scalar.
Proof. intros v. cbn. unfold one_literal, Q2R. cbn. lra. Qed.

Lemma real_one_plus_zero : @one_plus_zero R real_scalar.
Proof. unfold one_plus_zero. cbn. lra. Qed.

Lemma real_mul_zero_l : @mul_zero_l R real_scalar.
Proof. intros v. cbn. lra. Qed.

Lemma real_mul_assoc : @mul_assoc R real_scalar.
Proof. intros a b c. cbn. lra. Qed.

Lemma real_mul_add_distr_r : @mul_add_distr_r R real_scalar.
Proof. intros a b c. cbn. lra. Qed.

(** ** [reduce_precision] *)

Section ReducePrecision.
Context {F : Type} `{Scalar F}.
Implicit Types (s : scope F) (t : tensor F).

Lemma jnp_finfo_floating (d : DType) :
  is_ok (jnp_finfo d) = is_floating d.
Proof. by destruct d. Qed.

(** C7.  [reduce_precision] raises exactly on the arrays whose dtype is not
    floating.  On a floating array it returns a fresh array of the same
    dtype and shape, which is a function of the input array alone; the
    only effect is the allocation of that result: every other array
    object, the parameter collection, its mutability and the PRNG key are
    as before. *)
Theorem reduce_precision_fails_exactly_on_non_floating s x t :
  heap s !! x = Some t ->
  (is_floating (t_dtype t) = false -> exists e, reduce_precision x s = Err e)
  /\ (is_floating (t_dtype t) = true ->
      exists fi out,
        jnp_finfo (t_dtype t) = Ok fi
        /\ out = reduced fi t
        /\ t_dtype out = t_dtype t
        /\ t_shape out = t_shape t
        /\ reduce_precision x s
           = Ok (length (heap s),
                 Scope (heap s ++ [out]) (params s) (is_mutable s) (rng s))
        /\ preserved s (Scope (heap s ++ [out]) (params s) (is_mutable s) (rng s))).
Proof.
  intros Hx. rewrite (reduce_precision_eq _ _ _ Hx).
  pose proof (jnp_finfo_floating (t_dtype t)) as Hfi.
  destruct (jnp_finfo (t_dtype t)) as [fi|e]; cbn in Hfi; split; intros Hfl.
  - congruence.
  - exists fi, (reduced fi t). repeat split; try done.
    apply (preserved_extend s (reduced fi t)).
  - by exists e.
  - congruence.
Qed.

(** C5.  On a floating array, [reduce_precision] applied to its own result
    returns an array equal to that result, provided the engine's rounding
    to a fixed format is idempotent. *)
Theorem reduce_precision_idempotent s x t :
  round_idempotent ->
  heap s !! x = Some t ->
  is_floating (t_dtype t) = true ->
  exists r1 s1 r2 s2 out,
    reduce_precision x s = Ok (r1, s1)
    /\ reduce_precision r1 s1 = Ok (r2, s2)
    /\ heap s1 !! r1 = Some out
    /\ heap s2 !! r2 = Some out.
Proof.
  intros Hround Hx Hfl.
  pose proof (jnp_finfo_floating (t_dtype t)) as Hfi.
  destruct (jnp_finfo (t_dtype t)) as [fi|e] eqn:Efi; cbn in Hfi; [|congruence].
  set (out := reduced fi t).
  assert (Hr1 : heap (extend s out) !! length (heap s) = Some out)
    by apply lookup_extend_new.
  exists (length (heap s)), (extend s out).
  exists (length (heap (extend s out))), (extend (extend s out) out), out.
  split; [|split; [|split]].
  - rewrite (reduce_precision_eq _ _ _ Hx), Efi. reflexivity.
  - rewrite (reduce_precision_eq _ _ _ Hr1).
    change (t_dtype out) with (t_dtype t). rewrite Efi.
    do 3 f_equal. unfold out, reduced, t_map. cbn. f_equal.
    rewrite map_map. apply map_ext. intros v. apply Hround.
  - exact Hr1.
  - apply lookup_extend_new.
Qed.
End ReducePrecision.

Lemma reduce_precision_fails_exactly_on_non_floating_witness :
  (is_floating float32 = false ->
   exists e, reduce_precision 0 sample_scope = Err e)
  /\ (is_floating float32 = true ->
      exists fi out,
        jnp_finfo float32 = Ok fi
        /\ out = reduced fi (Tensor float32 [2] [1%R; 2%R])
        /\ t_dtype out = float32
        /\ t_shape out = [2]
        /\ reduce_precision 0 sample_scope
           = Ok (1, Scope ([Tensor float32 [2] [1%R; 2%R]] ++ [out]) ∅ true 0)
        /\ preserved sample_scope
             (Scope ([Tensor float32 [2] [1%R; 2%R]] ++ [out]) ∅ true 0)).
Proof.
  apply (reduce_precision_fails_exactly_on_non_floating
           sample_scope 0 (Tensor float32 [2] [1%R; 2%R])).
  reflexivity.
Defined.

Lemma reduce_precision_idempotent_witness :
  exists r1 s1 r2 s2 out,
    reduce_precision 0 sample_scope = Ok (r1, s1)
    /\ reduce_precision r1 s1 = Ok (r2, s2)
    /\ heap s1 !! r1 = Some out
    /\ heap s2 !! r2 = Some out.
Proof.
  apply (reduce_precision_idempotent
           sample_scope 0 (Tensor float32 [2] [1%R; 2%R])).
  - exact real_round_idempotent.
  - reflexivity.
  - reflexivity.
Defined.

(** ** Facts about shapes and row-major indexing *)

Section Indexing.

Lemma flat_map_length_const {A B} (f : A -> list B) (l : list A) (p : nat) :
  (forall a, length (f a) = p) -> length (flat_map f l) = length l * p.
Proof.
  intros Hf. induction l as [|a l IH]; [done|].
  cbn. rewrite length_app, Hf, IH. lia.
Qed.

Lemma map_flat_map_comm {A B C} (g : B -> C) (f : A -> list B) (l : list A) :
  map g (flat_map f l) = flat_map (fun a => map g (f a)) l.
Proof.
  induction l as [|a l IH]; [done|]. cbn. by rewrite map_app, IH.
Qed.

Lemma indices_length s : length (indices s) = numel s.
Proof.
  induction s as [|n s IH]; [done|]. cbn.
  rewrite (flat_map_length_const _ _ (numel s)).
  - by rewrite length_seq.
  - intros i. by rewrite length_map.
Qed.

Lemma indices_bounded s idx : In idx (indices s) -> Forall2 lt idx s.
Proof.
  revert idx. induction s as [|n s IH]; intros idx Hin; cbn in Hin.
  - destruct Hin as [<-|[]]. constructor.
  - apply in_flat_map in Hin as (i & Hi & Hin).
    apply in_map_iff in Hin as (idx' & <- & Hin').
    apply in_seq in Hi. constructor; [lia|]. by apply IH.
Qed.

Lemma seq_blocks (p n : nat) :
  flat_map (fun i => seq (i * p) p) (seq 0 n) = seq 0 (n * p).
Proof.
  induction n as [|n IH]; [done|].
  rewrite seq_S, flat_map_app, IH. cbn [flat_map]. rewrite app_nil_r.
  replace (S n * p) with (n * p + p) by lia.
  by rewrite seq_app.
Qed.

Lemma seq_shift_map (a p : nat) : map (fun k => a + k) (seq 0 p) = seq a p.
Proof.
  revert a. induction p as [|p IH]; intros a; [done|].
  rewrite !seq_S, map_app, IH. cbn. do 3 f_equal.
Qed.

(** The offsets of the indices of a shape, in order, are 0, 1, 2, ... *)
Lemma ravel_indices s : map (ravel s) (indices s) = seq 0 (numel s).
Proof.
  induction s as [|n s IH]; [done|].
  cbn [indices numel foldr]. fold (numel s).
  rewrite map_flat_map_comm, <- seq_blocks.
  apply flat_map_ext. intros i.
  rewrite map_map. cbn [ravel].
  rewrite <- seq_shift_map, <- IH, map_map. reflexivity.
Qed.

Lemma bcast_index_same s idx : Forall2 lt idx s -> bcast_index s idx = idx.
Proof.
  intros Hb. unfold bcast_index.
  rewrite (Forall2_length _ _ _ Hb), Nat.sub_diag, drop_0.
  induction Hb as [|i n idx s Hi Hb IH]; [done|].
  cbn. rewrite IH. f_equal.
  destruct (Nat.eqb_spec n 1); lia.
Qed.

Lemma broadcast_rev_same r : broadcast_rev r r = Some r.
Proof.
  induction r as [|a r IH]; [done|]. cbn. by rewrite IH, Nat.eqb_refl.
Qed.

Lemma broadcast_rev_ones r :
  broadcast_rev r (replicate (length r) 1) = Some r.
Proof.
  induction r as [|a r IH]; [done|]. cbn. rewrite IH.
  destruct (Nat.eqb_spec a 1); [by subst|done].
Qed.

Lemma rev_replicate_same {A} (n : nat) (x : A) :
  rev (replicate n x) = replicate n x.
Proof.
  induction n as [|n IH]; [done|].
  cbn. rewrite IH. symmetry. apply replicate_cons_app.
Qed.

(** (lead.., d) against (lead.., 1): the result of the keep-dims mean
    broadcasts back to the shape it came from. *)
Lemma broadcast_keepdims lead d :
  broadcast_shapes (lead ++ [d]) (lead ++ [1]) = Some (lead ++ [d]).
Proof.
  unfold broadcast_shapes. rewrite !rev_app_distr. cbn.
  rewrite broadcast_rev_same.
  destruct (Nat.eqb_spec d 1); [subst|]; cbn; by rewrite rev_involutive.
Qed.

(** (lead.., d) against (1, .., 1, d): the expanded scale broadcasts to the
    shape of the normalized array. *)
Lemma broadcast_expanded lead d :
  broadcast_shapes (lead ++ [d]) (replicate (length lead) 1 ++ [d])
  = Some (lead ++ [d]).
Proof.
  unfold broadcast_shapes. rewrite !rev_app_distr. cbn.
  rewrite rev_replicate_same.
  rewrite <- (length_rev lead), broadcast_rev_ones, Nat.eqb_refl.
  cbn. by rewrite rev_involutive.
Qed.

Lemma expand_shape_done fuel pos k s :
  k <= pos -> length s <= fuel -> expand_shape fuel pos (seq 0 k) s = s.
Proof.
  revert pos s. induction fuel as [|fuel IH]; intros pos s Hk Hlen.
  - destruct s; [done|cbn in Hlen; lia].
  - cbn. rewrite bool_decide_eq_false_2.
    + destruct s as [|n s]; [done|]. rewrite IH; [done|lia|cbn in Hlen; lia].
    + rewrite list_elem_of_In, in_seq. lia.
Qed.

Lemma expand_shape_leading k pos s :
  pos <= k ->
  expand_shape (length s + (k - pos)) pos (seq 0 k) s
  = replicate (k - pos) 1 ++ s.
Proof.
  remember (k - pos) as j eqn:Hj. revert pos Hj.
  induction j as [|j IH]; intros pos Hj Hle.
  - rewrite Nat.add_0_r. cbn [replicate app]. apply expand_shape_done; lia.
  - rewrite Nat.add_succ_r. cbn. rewrite bool_decide_eq_true_2.
    + rewrite IH; [done|lia|lia].
    + rewrite list_elem_of_In, in_seq. lia.
Qed.

(** [expand_dims(scale, axis=range(k))] prepends k axes of size 1. *)
Lemma expand_shape_range k s :
  expand_shape (length s + length (seq 0 k)) 0 (seq 0 k) s
  = replicate k 1 ++ s.
Proof.
  rewrite length_seq.
  pose proof (expand_shape_leading k 0 s) as Hl.
  rewrite Nat.sub_0_r in Hl. apply Hl. lia.
Qed.
End Indexing.

(** ** [RMSNorm.__call__], step by step *)

Ltac solve_lookup :=
  repeat first [ eassumption | apply lookup_extend_new | apply lookup_extend_old ].

Section RMSNormRun.
Context {F : Type} `{Scalar F}.
Implicit Types (s : scope F) (t n v : tensor F) (self : RMSNorm.config F).

Lemma guard_steps {A} (k : nat -> M F A) self s x t :
  heap s !! x = Some t ->
  bind (if RMSNorm.guard_against_excess_precision self
        then reduce_precision x else ret x) k s
  = if RMSNorm.guard_against_excess_precision self then
      match jnp_finfo (t_dtype t) with
      | Ok fi => k (length (heap s)) (extend s (reduced fi t))
      | Err e => Err e
      end
    else k x s.
Proof.
  intros Hx. rewrite bind_eq.
  destruct (RMSNorm.guard_against_excess_precision self); [|done].
  rewrite (reduce_precision_eq _ _ _ Hx).
  by destruct (jnp_finfo (t_dtype t)).
Qed.

Lemma normalize_steps {A} (k : nat -> M F A) s x t :
  heap s !! x = Some t ->
  (let* sq := jnp.square x in
   let* var := jnp.mean_last_keepdims sq in
   let* shifted := jnp.add_literal var eps_literal in
   let* inv := lax.rsqrt shifted in
   let* normed_inputs := jnp.multiply x inv in
   k normed_inputs) s
  = match mean_last_t (square_t t) with
    | Err e => Err e
    | Ok var =>
        match rsqrt_t (add_literal_t var eps_literal) with
        | Err e => Err e
        | Ok inv =>
            match multiply_t t inv with
            | Err e => Err e
            | Ok out =>
                k (length (heap s) + 4)
                  (extend (extend (extend (extend (extend s
                     (square_t t)) var) (add_literal_t var eps_literal)) inv) out)
            end
        end
    end.
Proof.
  intros Hx.
  rewrite bind_eq. unfold jnp.square.
  rewrite (prim1_eq _ _ _ _ Hx). cbv beta iota.
  rewrite bind_eq. unfold jnp.mean_last_keepdims.
  erewrite prim1_eq by solve_lookup.
  destruct (mean_last_t (square_t t)) as [var|e]; [|done]. cbv beta iota.
  rewrite bind_eq. unfold jnp.add_literal.
  erewrite prim1_eq by solve_lookup. cbv beta iota.
  rewrite bind_eq. unfold lax.rsqrt.
  erewrite prim1_eq by solve_lookup.
  destruct (rsqrt_t (add_literal_t var eps_literal)) as [inv|e]; [|done].
  cbv beta iota.
  rewrite bind_eq. unfold jnp.multiply.
  erewrite prim2_eq by solve_lookup.
  destruct (multiply_t t inv) as [out|e]; [|done]. cbv beta iota.
  f_equal. cbn. rewrite !length_app. cbn. lia.
Qed.

(** What [self.param] returns: either the stored object, whose shape has
    been checked, or a fresh object that holds the initial value. *)
Lemma param_ok_inv name (init : Initializer F) shape dt s a s2 :
  param name init shape dt s = Ok (a, s2) ->
  exists v,
    heap s2 !! a = Some v
    /\ preserved s s2
    /\ ((params s !! name = None /\ is_mutable s = true
         /\ v = init (rng s) shape dt
         /\ a = length (heap s)
         /\ s2 = Scope (heap s ++ [v]) (<[name := length (heap s)]> (params s))
                       (is_mutable s) (rng s))
        \/ (params s !! name = Some a /\ s2 = s
            /\ t_shape v = t_shape (init 0 shape dt))).
Proof.
  unfold param. intros Hp.
  destruct (params s !! name) as [a'|] eqn:Hn.
  - destruct (heap s !! a') as [v|] eqn:Ha; [|done].
    case_bool_decide as Hs; [|done].
    injection Hp as <- <-. exists v. split; [done|]. split; [apply preserved_refl|].
    right. done.
  - destruct (is_mutable s) eqn:Hm; [|done].
    injection Hp as <- <-. exists (init (rng s) shape dt).
    split; [cbn; by rewrite list_lookup_middle|].
    split; [intros b t Hb; cbn; by apply lookup_app_l_Some|].
    left. done.
Qed.

(** The tail of [__call__] when [with_scale] is set. *)
Lemma scale_steps self s x t nrm n :
  heap s !! x = Some t ->
  heap s !! nrm = Some n ->
  (let* x_shape := jnp.shape_of x in
   let* d := lift (match last x_shape with
                   | Some d => Ok d
                   | None => Err IndexError
                   end) in
   let* scale := param "scale" (RMSNorm.scale_init self) [d] None in
   let* scale := jnp.expand_dims scale (seq 0 (length x_shape - 1)) in
   let* mult := if RMSNorm.scale_plus_one self
                then jnp.radd_literal one_literal scale else ret scale in
   jnp.multiply nrm mult) s
  = match last (t_shape t) with
    | None => Err IndexError
    | Some d =>
        match param "scale" (RMSNorm.scale_init self) [d] None s with
        | Err e => Err e
        | Ok (a, s2) =>
            match heap s2 !! a with
            | None => Err InvalidReference
            | Some v =>
                let expanded := expand_dims_t v (seq 0 (length (t_shape t) - 1)) in
                let s3 := extend s2 expanded in
                let s4 := if RMSNorm.scale_plus_one self
                          then extend s3 (radd_literal_t one_literal expanded)
                          else s3 in
                match multiply_t n (scale_multiplier self (length (t_shape t)) v) with
                | Err e => Err e
                | Ok out => Ok (length (heap s4), extend s4 out)
                end
            end
        end
    end.
Proof.
  intros Hx Hn.
  rewrite bind_eq. unfold jnp.shape_of. rewrite bind_eq.
  unfold load at 1. rewrite Hx. cbv beta iota. unfold ret at 1.
  rewrite bind_eq. unfold lift at 1.
  destruct (last (t_shape t)) as [d|]; [|done]. cbv beta iota.
  rewrite bind_eq.
  destruct (param "scale" (RMSNorm.scale_init self) [d] None s)
    as [[a s2]|e] eqn:Hp; [|done].
  destruct (param_ok_inv _ _ _ _ _ _ _ Hp) as (v & Ha & Hpres & _).
  rewrite Ha. cbv zeta.
  rewrite bind_eq. unfold jnp.expand_dims.
  rewrite (prim1_eq _ _ _ _ Ha). cbv beta iota.
  rewrite bind_eq. unfold scale_multiplier.
  destruct (RMSNorm.scale_plus_one self).
  - unfold jnp.radd_literal.
    erewrite prim1_eq by solve_lookup. cbv beta iota.
    unfold jnp.multiply.
    erewrite prim2_eq;
      [|apply lookup_extend_old, lookup_extend_old, Hpres, Hn
       |apply lookup_extend_new].
    reflexivity.
  - unfold ret at 1. unfold jnp.multiply.
    erewrite prim2_eq;
      [|apply lookup_extend_old, Hpres, Hn|apply lookup_extend_new].
    reflexivity.
Qed.

(** [__call__] as one equation over the values of the arrays. *)
Lemma call_eq self s x t :
  heap s !! x = Some t ->
  RMSNorm.__call__ self x s
  = match guarded self t with
    | Err e => Err e
    | Ok t' =>
        match mean_last_t (square_t t') with
        | Err e => Err e
        | Ok var =>
            match rsqrt_t (add_literal_t var eps_literal) with
            | Err e => Err e
            | Ok inv =>
                match multiply_t t' inv with
                | Err e => Err e
                | Ok n =>
                    let s0 := guard_scope self s t' in
                    let s1 := normalized_scope s0 t' var inv n in
                    if RMSNorm.with_scale self
                    then scale_tail self (t_shape t') n s1
                    else Ok (length (heap s0) + 4, s1)
                end
            end
        end
    end.
Proof.
  intros Hx. unfold RMSNorm.__call__.
  rewrite (guard_steps _ self s x t Hx).
  unfold guarded, guard_scope.
  destruct (RMSNorm.guard_against_excess_precision self).
  - destruct (jnp_finfo (t_dtype t)) as [fi|e]; [|done].
    erewrite normalize_steps by apply lookup_extend_new.
    destruct (mean_last_t (square_t (reduced fi t))) as [var|e]; [|done].
    destruct (rsqrt_t (add_literal_t var eps_literal)) as [inv|e]; [|done].
    destruct (multiply_t (reduced fi t) inv) as [n|e]; [|done].
    cbv zeta. destruct (RMSNorm.with_scale self); [|done].
    erewrite scale_steps; [reflexivity| |].
    + do 5 apply lookup_extend_old. apply lookup_extend_new.
    + replace (length (heap (extend s (reduced fi t))) + 4)
        with (length (heap (extend (extend (extend (extend
                (extend s (reduced fi t)) (square_t (reduced fi t))) var)
                (add_literal_t var eps_literal)) inv)))
        by (cbn; rewrite !length_app; cbn; lia).
      apply lookup_extend_new.
  - erewrite normalize_steps by exact Hx.
    destruct (mean_last_t (square_t t)) as [var|e]; [|done].
    destruct (rsqrt_t (add_literal_t var eps_literal)) as [inv|e]; [|done].
    destruct (multiply_t t inv) as [n|e]; [|done].
    cbv zeta. destruct (RMSNorm.with_scale self); [|done].
    erewrite scale_steps; [reflexivity| |].
    + do 5 apply lookup_extend_old. exact Hx.
    + replace (length (heap s) + 4)
        with (length (heap (extend (extend (extend (extend
                s (square_t t)) var) (add_literal_t var eps_literal)) inv)))
        by (cbn; rewrite !length_app; cbn; lia).
      apply lookup_extend_new.
Qed.
End RMSNormRun.

(** ** Shapes through the normalization *)

Section Shapes.
Context {F : Type} `{Scalar F}.
Implicit Types (s : scope F) (t n v : tensor F) (self : RMSNorm.config F).

Lemma weak_float_type_idem d :
  weak_float_type (weak_float_type d) = weak_float_type d.
Proof. by destruct d. Qed.

Lemma weak_promote_weak a b :
  weak_float_type (promote_types a (weak_float_type b))
  = promote_types a (weak_float_type b).
Proof. by destruct a, b. Qed.

Lemma weak_float_type_floating d : is_floating (weak_float_type d) = true.
Proof. by destruct d. Qed.

Lemma shape_snoc (sh : list nat) d lead :
  rev sh = d :: lead -> sh = rev lead ++ [d].
Proof. intros Hr. by rewrite <- (rev_involutive sh), Hr. Qed.

Lemma mean_last_inv t var :
  mean_last_t t = Ok var ->
  exists lead d,
    t_shape t = lead ++ [d]
    /\ t_shape var = lead ++ [1]
    /\ t_dtype var = weak_float_type (t_dtype t).
Proof.
  unfold mean_last_t. destruct (rev (t_shape t)) as [|d lead] eqn:Hr; [done|].
  intros [= <-]. exists (rev lead), d. by rewrite (shape_snoc _ _ _ Hr).
Qed.

Lemma mean_last_defined t :
  t_shape t <> [] -> exists var, mean_last_t t = Ok var.
Proof.
  intros Hne. unfold mean_last_t.
  destruct (rev (t_shape t)) as [|d lead] eqn:Hr; [|by eexists].
  apply (f_equal (@rev nat)) in Hr. rewrite rev_involutive in Hr. done.
Qed.

Lemma multiply_inv (a b c : tensor F) :
  multiply_t a b = Ok c ->
  broadcast_shapes (t_shape a) (t_shape b) = Some (t_shape c)
  /\ t_dtype c = promote_types (t_dtype a) (t_dtype b)
  /\ wf_tensor c.
Proof.
  unfold multiply_t.
  destruct (broadcast_shapes (t_shape a) (t_shape b)) as [so|]; [|done].
  intros [= <-]. repeat split.
  unfold wf_tensor. cbn. by rewrite length_map, indices_length.
Qed.

(** The normalized array has the shape of the array it is computed from. *)
Lemma rms_formula_inv t n :
  rms_formula t = Ok n ->
  exists lead d,
    t_shape t = lead ++ [d] /\ t_shape n = t_shape t /\ wf_tensor n.
Proof.
  unfold rms_formula.
  destruct (mean_last_t (square_t t)) as [var|e] eqn:Hm; [|done].
  destruct (rsqrt_t _) as [inv|e] eqn:Hr; [|done].
  intros Hn.
  apply mean_last_inv in Hm as (lead & d & Hsh & Hvar & _).
  cbn in Hsh.
  assert (Hinv : t_shape inv = lead ++ [1]).
  { unfold rsqrt_t in Hr. destruct (is_floating _); [|done].
    injection Hr as <-. exact Hvar. }
  apply multiply_inv in Hn as (Hb & _ & Hwf).
  rewrite Hsh, Hinv, broadcast_keepdims in Hb. injection Hb as Hb.
  exists lead, d. by rewrite Hsh.
Qed.

(** The normalization is defined on every array that has a last axis. *)
Lemma rms_formula_defined t :
  t_shape t <> [] -> exists n, rms_formula t = Ok n.
Proof.
  intros Hne. unfold rms_formula.
  destruct (mean_last_defined (square_t t) Hne) as [var Hm]. rewrite Hm.
  apply mean_last_inv in Hm as (lead & d & Hsh & Hvar & Hdt). cbn in Hsh.
  unfold rsqrt_t, add_literal_t, t_map. cbn [t_dtype].
  rewrite weak_float_type_floating.
  unfold multiply_t. cbn [t_shape].
  rewrite Hsh, Hvar, broadcast_keepdims. by eexists.
Qed.

Lemma guarded_inv self t t' :
  guarded self t = Ok t' ->
  t_shape t' = t_shape t /\ t_dtype t' = t_dtype t.
Proof.
  unfold guarded. destruct (RMSNorm.guard_against_excess_precision self).
  - destruct (jnp_finfo (t_dtype t)); [|done]. by intros [= <-].
  - by intros [= <-].
Qed.

Lemma guarded_defined self t :
  (RMSNorm.guard_against_excess_precision self = true ->
   is_floating (t_dtype t) = true) ->
  exists t', guarded self t = Ok t'.
Proof.
  unfold guarded. intros Hg.
  destruct (RMSNorm.guard_against_excess_precision self); [|by eexists].
  pose proof (jnp_finfo_floating (t_dtype t)) as Hfi.
  rewrite Hg in Hfi by done.
  destruct (jnp_finfo (t_dtype t)); [by eexists|done].
Qed.

Lemma last_snoc_shape (lead : list nat) d : last (lead ++ [d]) = Some d.
Proof. apply last_snoc. Qed.

(** The multiplier built from a scale of shape (d,) has shape
    (1, .., 1, d), of the rank of the input. *)
Lemma scale_multiplier_shape self lead d v :
  t_shape v = [d] ->
  t_shape (scale_multiplier self (length (lead ++ [d])) v)
  = replicate (length lead) 1 ++ [d].
Proof.
  intros Hv. unfold scale_multiplier, expand_dims_t.
  assert (Hk : length (lead ++ [d]) - 1 = length lead)
    by (rewrite length_app; cbn; lia).
  rewrite Hk.
  destruct (RMSNorm.scale_plus_one self); cbn [radd_literal_t t_map t_shape];
    by rewrite Hv, expand_shape_range.
Qed.

Lemma scaled_shape self lead d n v out :
  t_shape n = lead ++ [d] ->
  t_shape v = [d] ->
  multiply_t n (scale_multiplier self (length (lead ++ [d])) v) = Ok out ->
  t_shape out = lead ++ [d].
Proof.
  intros Hn Hv Hm. apply multiply_inv in Hm as (Hb & _).
  rewrite Hn, (scale_multiplier_shape _ _ _ _ Hv), broadcast_expanded in Hb.
  by injection Hb.
Qed.

Lemma scaled_defined self lead d n v :
  t_shape n = lead ++ [d] ->
  t_shape v = [d] ->
  exists out,
    multiply_t n (scale_multiplier self (length (lead ++ [d])) v) = Ok out.
Proof.
  intros Hn Hv. unfold multiply_t.
  rewrite Hn, (scale_multiplier_shape _ _ _ _ Hv), broadcast_expanded.
  by eexists.
Qed.

Lemma preserved_guard_scope self s t' : preserved s (guard_scope self s t').
Proof.
  unfold guard_scope. destruct (RMSNorm.guard_against_excess_precision self).
  - apply preserved_extend.
  - apply preserved_refl.
Qed.

Lemma preserved_normalized_scope s t' var inv n :
  preserved s (normalized_scope s t' var inv n).
Proof.
  unfold normalized_scope. intros a t Ha. by do 5 apply lookup_extend_old.
Qed.
End Shapes.

(** ** The normalization, element by element *)

Section Elementwise.
Context {F : Type} `{Scalar F}.

Lemma numel_snoc (lead : list nat) d : numel (lead ++ [d]) = numel lead * d.
Proof.
  induction lead as [|a lead IH]; cbn; [lia|].
  fold (numel (lead ++ [d])). fold (numel lead). rewrite IH. lia.
Qed.

Lemma ravel_snoc (lead pre : list nat) d j :
  length pre = length lead ->
  ravel (lead ++ [d]) (pre ++ [j]) = ravel lead pre * d + j.
Proof.
  revert pre. induction lead as [|a lead IH]; intros [|i pre] Hlen;
    try discriminate; cbn; [lia|].
  fold (numel (lead ++ [d])). fold (numel lead).
  rewrite numel_snoc, IH by (cbn in Hlen; lia). lia.
Qed.

Lemma pin_bounded (s idx : list nat) :
  Forall2 lt idx s ->
  zip_with (fun (a i : nat) => if Nat.eqb a 1 then 0 else i) s idx = idx.
Proof.
  induction 1 as [|i a idx s Hi _ IH]; [done|]. cbn. rewrite IH. f_equal.
  destruct (Nat.eqb_spec a 1); lia.
Qed.

(** The offset read in the (lead.., 1) operand is the number of the row. *)
Lemma keepdims_offset lead d idx :
  Forall2 lt idx (lead ++ [d]) ->
  ravel (lead ++ [1]) (bcast_index (lead ++ [1]) idx)
  = ravel (lead ++ [d]) idx / d.
Proof.
  intros Hb. apply Forall2_app_inv_r in Hb as (pre & js & Hpre & Hj & ->).
  apply Forall2_cons_inv_r in Hj as (j & js' & Hj & Hnil & ->).
  apply Forall2_nil_inv_r in Hnil as ->.
  pose proof (Forall2_length _ _ _ Hpre) as Hlen.
  unfold bcast_index. rewrite !length_app, Hlen. cbn [length].
  rewrite Nat.sub_diag, drop_0.
  rewrite zip_with_app by done. rewrite (pin_bounded _ _ Hpre). cbn [zip_with].
  rewrite !ravel_snoc by done.
  rewrite Nat.div_add_l by lia. rewrite Nat.div_small by lia.
  rewrite Nat.eqb_refl. lia.
Qed.

Lemma get_map_seq (g : nat -> F) (n i : nat) :
  i < n -> get (map g (seq 0 n)) i = g i.
Proof.
  intros Hi. unfold get.
  change (map g (seq 0 n)) with (g <$> seq 0 n).
  rewrite list_lookup_fmap, lookup_seq_lt by done. reflexivity.
Qed.

Lemma promote_with_weak d :
  promote_types d (weak_float_type d) = weak_float_type d.
Proof. by destruct d. Qed.

(** On a well-formed array with a last axis of length [d], the formula is
    defined and its buffer holds [rms_element] at every position. *)
Lemma rms_formula_elementwise (t : tensor F) lead d :
  wf_tensor t ->
  t_shape t = lead ++ [d] ->
  rms_formula t
  = Ok (Tensor (weak_float_type (t_dtype t)) (lead ++ [d])
               (map (rms_element d (t_data t)) (seq 0 (length (t_data t))))).
Proof.
  intros Hwf Hsh. unfold rms_formula, mean_last_t.
  cbn [square_t t_map t_shape t_dtype t_data].
  rewrite Hsh, rev_app_distr. cbn [rev app]. rewrite rev_involutive.
  unfold rsqrt_t, add_literal_t, t_map. cbn [t_dtype t_shape t_data].
  rewrite weak_float_type_idem, weak_float_type_floating.
  unfold multiply_t. cbn [t_dtype t_shape t_data].
  rewrite Hsh, broadcast_keepdims, promote_with_weak.
  apply (f_equal Ok), (f_equal (Tensor _ _)).
  rewrite Hwf, Hsh, <- (ravel_indices (lead ++ [d])).
  rewrite (map_map (ravel (lead ++ [d]))).
  apply map_ext_in. intros idx Hin.
  assert (Hk : ravel (lead ++ [d]) idx < numel lead * d).
  { rewrite <- numel_snoc.
    assert (Hmem : In (ravel (lead ++ [d]) idx)
                      (map (ravel (lead ++ [d])) (indices (lead ++ [d]))))
      by by apply in_map.
    rewrite ravel_indices in Hmem. apply in_seq in Hmem. lia. }
  apply indices_bounded in Hin.
  rewrite (bcast_index_same _ _ Hin), (keepdims_offset _ _ _ Hin).
  unfold rms_element. f_equal.
  rewrite !map_map, get_map_seq; [done|].
  apply Nat.Div0.div_lt_upper_bound. lia.
Qed.
End Elementwise.

(** ** [RMSNorm]: the normalization formula and the shape of the result *)

Section RMSNormTheorems.
Context {F : Type} `{Scalar F}.
Implicit Types (s : scope F) (t n v : tensor F) (self : RMSNorm.config F).

Lemma normalized_result s0 t' var inv n :
  heap (normalized_scope s0 t' var inv n) !! (length (heap s0) + 4) = Some n.
Proof.
  unfold normalized_scope.
  replace (length (heap s0) + 4)
    with (length (heap (extend (extend (extend (extend
            s0 (square_t t')) var) (add_literal_t var eps_literal)) inv)))
    by (cbn; rewrite !length_app; cbn; lia).
  apply lookup_extend_new.
Qed.

(** C1.  With [with_scale] and [guard_against_excess_precision] both off,
    the call returns exactly the array
    [x * rsqrt(mean(x^2, last axis, kept as size 1) + 1e-6)]
    ([rms_formula], whose epsilon is the constant 1/1000000 for every
    configuration); where that expression is undefined (an array without
    a last axis) the call raises the same error.  On a well-formed array
    whose last axis has length [d], the expression is defined and element
    [k] of its buffer is [x_k * rsqrt(mean of the squares of the row of k
    + 1/1000000)] ([rms_element]). *)
Theorem rmsnorm_unscaled_equals_formula self s x t :
  RMSNorm.with_scale self = false ->
  RMSNorm.guard_against_excess_precision self = false ->
  heap s !! x = Some t ->
  match rms_formula t with
  | Ok out => exists r s', RMSNorm.__call__ self x s = Ok (r, s')
                           /\ heap s' !! r = Some out
  | Err e => RMSNorm.__call__ self x s = Err e
  end
  /\ (forall lead d,
        wf_tensor t ->
        t_shape t = lead ++ [d] ->
        rms_formula t
        = Ok (Tensor (weak_float_type (t_dtype t)) (t_shape t)
                     (map (rms_element d (t_data t))
                          (seq 0 (length (t_data t)))))).
Proof.
  intros Hws Hg Hx. split.
  - rewrite (call_eq self s x t Hx).
    unfold guarded, guard_scope, rms_formula. rewrite Hg, Hws.
    change (1 # 1000000) with eps_literal.
    destruct (mean_last_t (square_t t)) as [var|e]; [|done].
    destruct (rsqrt_t (add_literal_t var eps_literal)) as [inv|e]; [|done].
    destruct (multiply_t t inv) as [n|e]; [|done].
    cbv zeta. eexists _, _. split; [reflexivity|]. apply normalized_result.
  - intros lead d Hwf Hsh.
    rewrite (rms_formula_elementwise t lead d Hwf Hsh). by rewrite Hsh.
Qed.

(** Shape and frame of a returned array, and the inputs on which the call
    returns. *)
Lemma call_shape_and_defined self s x t :
  initializer_ok (RMSNorm.scale_init self) ->
  heap s !! x = Some t ->
  (forall r s',
      RMSNorm.__call__ self x s = Ok (r, s') ->
      exists out, heap s' !! r = Some out
                  /\ t_shape out = t_shape t
                  /\ heap s' !! x = Some t
                  /\ preserved s s')
  /\ (t_shape t <> [] ->
      (RMSNorm.guard_against_excess_precision self = true ->
       is_floating (t_dtype t) = true) ->
      (RMSNorm.with_scale self = true -> scale_available s (t_shape t)) ->
      exists r s', RMSNorm.__call__ self x s = Ok (r, s')).
Proof.
  intros Hinit Hx. rewrite (call_eq self s x t Hx). split.
  - intros r s' Hrun.
    destruct (guarded self t) as [t'|e] eqn:Hg; [|done].
    apply guarded_inv in Hg as [Hsh' _].
    pose proof (rms_formula_inv t') as Hf. unfold rms_formula in Hf.
    change (1 # 1000000) with eps_literal in Hf.
    destruct (mean_last_t (square_t t')) as [var|e]; [|done].
    destruct (rsqrt_t (add_literal_t var eps_literal)) as [inv|e]; [|done].
    destruct (multiply_t t' inv) as [n|e]; [|done].
    destruct (Hf n eq_refl) as (lead & d & Hlead & Hn & _).
    cbv zeta in Hrun.
    set (s0 := guard_scope self s t') in *.
    set (s1 := normalized_scope s0 t' var inv n) in *.
    assert (Hp1 : preserved s s1).
    { eapply preserved_trans; [apply preserved_guard_scope|].
      apply preserved_normalized_scope. }
    destruct (RMSNorm.with_scale self).
    + unfold scale_tail in Hrun. rewrite Hlead, last_snoc_shape in Hrun.
      destruct (param _ _ _ _ s1) as [[a s2]|e] eqn:Hp; [|done].
      destruct (param_ok_inv _ _ _ _ _ _ _ Hp) as (v & Ha & Hp12 & Hsrc).
      rewrite Ha in Hrun. cbv zeta in Hrun.
      assert (Hv : t_shape v = [d]).
      { destruct Hsrc as [(_ & _ & -> & _ & _)|(_ & _ & ->)]; apply Hinit. }
      destruct (multiply_t n _) as [out|e] eqn:Hm; [|done].
      injection Hrun as <- <-.
      exists out. split; [apply lookup_extend_new|].
      split.
      { rewrite <- Hsh', Hlead.
        eapply scaled_shape; [by rewrite Hn, Hlead|exact Hv|exact Hm]. }
      assert (Hp2 : preserved s
                (extend (if RMSNorm.scale_plus_one self
                         then extend (extend s2 (expand_dims_t v (seq 0 (length (lead ++ [d]) - 1))))
                                     (radd_literal_t one_literal
                                        (expand_dims_t v (seq 0 (length (lead ++ [d]) - 1))))
                         else extend s2 (expand_dims_t v (seq 0 (length (lead ++ [d]) - 1))))
                        out)).
      { intros b u Hb. apply lookup_extend_old.
        destruct (RMSNorm.scale_plus_one self);
          repeat apply lookup_extend_old; by apply Hp12, Hp1. }
      split; [by apply Hp2|exact Hp2].
    + injection Hrun as <- <-.
      exists n. split; [apply normalized_result|].
      split; [by rewrite Hn|]. split; [by apply Hp1|exact Hp1].
  - intros Hne Hfl Hav.
    destruct (guarded_defined self t Hfl) as [t' Hg]. rewrite Hg.
    apply guarded_inv in Hg as [Hsh' _].
    assert (Hne' : t_shape t' <> []) by by rewrite Hsh'.
    destruct (rms_formula_defined t' Hne') as [n Hf].
    pose proof (rms_formula_inv t' n Hf) as (lead & d & Hlead & Hn & _).
    unfold rms_formula in Hf. change (1 # 1000000) with eps_literal in Hf.
    destruct (mean_last_t (square_t t')) as [var|e]; [|done].
    destruct (rsqrt_t (add_literal_t var eps_literal)) as [inv|e]; [|done].
    rewrite Hf. cbv zeta.
    set (s0 := guard_scope self s t').
    set (s1 := normalized_scope s0 t' var inv n).
    assert (Hp1 : preserved s s1).
    { eapply preserved_trans; [apply preserved_guard_scope|].
      apply preserved_normalized_scope. }
    assert (Hpar : params s1 = params s).
    { unfold s1, s0, normalized_scope, guard_scope.
      by destruct (RMSNorm.guard_against_excess_precision self). }
    assert (Hmut : is_mutable s1 = is_mutable s).
    { unfold s1, s0, normalized_scope, guard_scope.
      by destruct (RMSNorm.guard_against_excess_precision self). }
    destruct (RMSNorm.with_scale self); [|by eexists _, _].
    specialize (Hav eq_refl). unfold scale_available in Hav.
    unfold scale_tail. rewrite Hlead, last_snoc_shape.
    unfold param. rewrite Hpar, Hmut.
    destruct (params s !! "scale") as [a|].
    + destruct Hav as (v & Ha & Hv).
      rewrite (Hp1 _ _ Ha).
      assert (Hvd : t_shape v = [d]).
      { apply Hv. by rewrite <- Hsh', Hlead, last_snoc_shape. }
      rewrite bool_decide_eq_true_2
        by (rewrite Hvd; symmetry; apply Hinit).
      rewrite (Hp1 _ _ Ha). cbv zeta.
      destruct (scaled_defined self lead d n v) as [out Hm];
        [by rewrite Hn|done|].
      rewrite Hm. by eexists _, _.
    + rewrite Hav. cbn [heap]. rewrite list_lookup_middle by done. cbv zeta.
      destruct (scaled_defined self lead d n
                  (RMSNorm.scale_init self (rng s1) [d] None)) as [out Hm];
        [by rewrite Hn|apply Hinit|].
      rewrite Hm. by eexists _, _.
Qed.

(** C2.  Whatever the three flags are, an array returned by the call has
    the shape of the input array, and the input array object (like every
    other array object that existed before the call) is unchanged.  The
    call does return on every input that has a last axis, is floating
    when the precision guard is on, and whose [scale] parameter can be
    provided. *)
Theorem rmsnorm_preserves_shape self s x t :
  initializer_ok (RMSNorm.scale_init self) ->
  heap s !! x = Some t ->
  (forall r s',
      RMSNorm.__call__ self x s = Ok (r, s') ->
      exists out, heap s' !! r = Some out
                  /\ t_shape out = t_shape t
                  /\ heap s' !! x = Some t
                  /\ preserved s s')
  /\ (t_shape t <> [] ->
      (RMSNorm.guard_against_excess_precision self = true ->
       is_floating (t_dtype t) = true) ->
      (RMSNorm.with_scale self = true -> scale_available s (t_shape t)) ->
      exists r s', RMSNorm.__call__ self x s = Ok (r, s')).
Proof. apply call_shape_and_defined. Qed.
End RMSNormTheorems.

(** ** Multiplying by a scale that is constant along the last axis *)

Section ConstantScale.
Context {F : Type} `{Scalar F}.
Implicit Types (t n v m : tensor F) (c : F).

Lemma get_seq (l : list F) : map (get l) (seq 0 (length l)) = l.
Proof.
  induction l as [|a l IH] using rev_ind; [done|].
  rewrite length_app. cbn [length]. rewrite Nat.add_1_r, seq_S, map_app.
  cbn [map]. f_equal.
  - transitivity (map (get l) (seq 0 (length l))); [|exact IH].
    apply map_ext_in. intros k Hk. apply in_seq in Hk.
    unfold get. by rewrite lookup_app_l by lia.
  - unfold get. by rewrite list_lookup_middle.
Qed.

Lemma get_replicate k c j : j < k -> get (replicate k c) j = c.
Proof. intros Hj. unfold get. by rewrite lookup_replicate_2. Qed.

Lemma ravel_leading_zeros k d j :
  ravel (replicate k 1 ++ [d]) (replicate k 0 ++ [j]) = j.
Proof.
  induction k as [|k IH]; cbn; [lia|]. cbn in IH. by rewrite IH.
Qed.

Lemma pin_leading (idx : list nat) :
  zip_with (fun (a i : nat) => if Nat.eqb a 1 then 0 else i)
           (replicate (length idx) 1) idx
  = replicate (length idx) 0.
Proof. induction idx as [|i idx IH]; [done|]. cbn. by rewrite IH. Qed.

(** The offset read in a (1, .., 1, d) operand is the last component of
    the index. *)
Lemma trailing_offset lead d idx :
  Forall2 lt idx (lead ++ [d]) ->
  ravel (replicate (length lead) 1 ++ [d])
        (bcast_index (replicate (length lead) 1 ++ [d]) idx) < d.
Proof.
  intros Hb. apply Forall2_app_inv_r in Hb as (pre & js & Hpre & Hj & ->).
  apply Forall2_cons_inv_r in Hj as (j & js' & Hj & Hnil & ->).
  apply Forall2_nil_inv_r in Hnil as ->.
  pose proof (Forall2_length _ _ _ Hpre) as Hlen.
  unfold bcast_index.
  rewrite !length_app, length_replicate, Hlen. cbn [length].
  rewrite Nat.sub_diag, drop_0.
  rewrite zip_with_app by (by rewrite length_replicate).
  rewrite <- Hlen, pin_leading. cbn [zip_with].
  rewrite ravel_leading_zeros.
  destruct (Nat.eqb d 1); lia.
Qed.

(** A (1, .., 1, d) operand that holds the same value [c] everywhere
    multiplies every element of the other operand by [c]. *)
Lemma multiply_constant_row n m lead d c :
  wf_tensor n ->
  t_shape n = lead ++ [d] ->
  t_shape m = replicate (length lead) 1 ++ [d] ->
  t_data m = replicate d c ->
  multiply_t n m
  = Ok (Tensor (promote_types (t_dtype n) (t_dtype m)) (lead ++ [d])
               (map (fun a => fmul a c) (t_data n))).
Proof.
  intros Hwf Hn Hm Hc. unfold multiply_t.
  rewrite Hn, Hm, broadcast_expanded. do 2 f_equal.
  transitivity (map (fun a => fmul a c)
                    (map (get (t_data n)) (seq 0 (length (t_data n)))));
    [|by rewrite get_seq].
  rewrite Hwf, Hn, <- ravel_indices, !map_map.
  apply map_ext_in. intros idx Hin. apply indices_bounded in Hin.
  rewrite (bcast_index_same _ _ Hin), Hc.
  by rewrite get_replicate by by apply trailing_offset.
Qed.

End ConstantScale.

(** ** The zero initializer *)

Section ZeroScale.
Context {F : Type} `{Scalar F}.
Implicit Types (s : scope F) (t n v : tensor F) (self : RMSNorm.config F).

Lemma zeros_init_ok : initializer_ok (@initializers.zeros_init F _).
Proof.
  intros key sh dt. split; [done|].
  unfold wf_tensor. cbn. by rewrite length_replicate.
Qed.

Lemma map_replicate_const {A B} (f : A -> B) (k : nat) (a : A) :
  map f (replicate k a) = replicate k (f a).
Proof. induction k as [|k IH]; [done|]. cbn. by rewrite IH. Qed.

End ZeroScale.

(** ** [Einsum.__call__], step by step *)

Section EinsumRun.
Context {F : Type} `{Scalar F}.
Implicit Types (s : scope F) (t w : tensor F) (self : Einsum.config F).

Lemma einsum_call_eq self eqn s x t :
  heap s !! x = Some t ->
  Einsum.__call__ self eqn x s
  = match param (Einsum.weight_name self) (Einsum.initializer self)
                (Einsum.shape self) (Einsum.dtype self) s with
    | Err e => Err e
    | Ok (a, s2) =>
        match heap s2 !! a with
        | None => Err InvalidReference
        | Some w =>
            match einsum_t eqn t (effective_weight self w) with
            | Err e => Err e
            | Ok out => Ok (length (heap (scaled_scope self s2 w)),
                            extend (scaled_scope self s2 w) out)
            end
        end
    end.
Proof.
  intros Hx. unfold Einsum.__call__. rewrite bind_eq.
  replace (match Einsum.dtype self with Some d => Some d | None => None end)
    with (Einsum.dtype self) by by destruct (Einsum.dtype self).
  destruct (param _ _ _ _ s) as [[a s2]|e] eqn:Hp; [|done].
  destruct (param_ok_inv _ _ _ _ _ _ _ Hp) as (w & Ha & Hpres & _).
  rewrite Ha, bind_eq. unfold effective_weight, scaled_scope.
  destruct (Einsum.w_scale self) as [m|]; [destruct (truthy m)|].
  - unfold jnp.mul_scalar. rewrite (prim1_eq _ _ _ _ Ha). cbv beta iota.
    unfold jnp.einsum.
    erewrite prim2_eq;
      [|apply lookup_extend_old, Hpres, Hx|apply lookup_extend_new].
    reflexivity.
  - unfold ret at 1. unfold jnp.einsum.
    erewrite prim2_eq; [|apply Hpres, Hx|exact Ha]. reflexivity.
  - unfold ret at 1. unfold jnp.einsum.
    erewrite prim2_eq; [|apply Hpres, Hx|exact Ha]. reflexivity.
Qed.

Lemma preserved_scaled_scope self s w : preserved s (scaled_scope self s w).
Proof.
  unfold scaled_scope.
  destruct (Einsum.w_scale self) as [m|]; [destruct (truthy m)|];
    try apply preserved_refl.
  apply preserved_extend.
Qed.

Lemma params_scaled_scope self s w :
  params (scaled_scope self s w) = params s.
Proof.
  unfold scaled_scope.
  by destruct (Einsum.w_scale self) as [m|]; [destruct (truthy m)|].
Qed.

(** After [self.param], the collection maps the name to the object that
    was returned. *)
Lemma param_stored name (init : Initializer F) shape dt s a s2 :
  param name init shape dt s = Ok (a, s2) -> params s2 !! name = Some a.
Proof.
  intros Hp. destruct (param_ok_inv _ _ _ _ _ _ _ Hp) as (v & _ & _ & Hsrc).
  destruct Hsrc as [(_ & _ & _ & -> & ->)|(Hn & -> & _)]; [|done].
  cbn [params]. apply lookup_insert_eq.
Qed.
End EinsumRun.

(** ** Linearity of the contraction in the weight *)

Section Linearity.
Context {F : Type} `{Scalar F}.
Implicit Types (s : scope F) (t w : tensor F) (self : Einsum.config F) (m : F).

Lemma get_map_scaled (l : list F) m k :
  mul_zero_l -> get (map (fun v => fmul v m) l) k = fmul (get l k) m.
Proof.
  intros Hz. unfold get.
  change (map (fun v => fmul v m) l) with ((fun v => fmul v m) <$> l).
  rewrite list_lookup_fmap. destruct (l !! k); cbn; [done|]. by rewrite Hz.
Qed.

Lemma fsum_map_scaled (l : list F) m :
  mul_zero_l -> mul_add_distr_r ->
  fsum (map (fun a => fmul a m) l) = fmul (fsum l) m.
Proof.
  intros Hz Hd. induction l as [|a l IH]; cbn; [by rewrite Hz|].
  fold (fsum (map (fun a => fmul a m) l)). fold (fsum l).
  by rewrite IH, Hd.
Qed.

(** Contracting against [w * m] gives the contraction against [w] with
    every element multiplied by [m]. *)
Lemma einsum_scaled_weight eqn t w m :
  mul_zero_l -> mul_assoc -> mul_add_distr_r ->
  einsum_t eqn t (mul_scalar_t w m)
  = match einsum_t eqn t w with
    | Err e => Err e
    | Ok out =>
        Ok (Tensor (promote_types (t_dtype t) (weak_float_type (t_dtype w)))
                   (t_shape out)
                   (map (fun a => fmul a m) (t_data out)))
    end.
Proof.
  intros Hz Ha Hd. unfold einsum_t. cbn [mul_scalar_t t_map t_shape t_dtype t_data].
  destruct (einsum_plan eqn (t_shape t) (t_shape w)) as [p|e]; [|done].
  cbn [t_shape t_data]. do 2 f_equal.
  rewrite map_map. apply map_ext. intros ts.
  rewrite <- fsum_map_scaled by done. f_equal.
  rewrite map_map. apply map_ext. intros ij.
  by rewrite get_map_scaled, Ha.
Qed.

Lemma mul_scalar_one w :
  mul_one_r ->
  mul_scalar_t w (of_literal one_literal)
  = Tensor (weak_float_type (t_dtype w)) (t_shape w) (t_data w).
Proof.
  intros Hone. unfold mul_scalar_t, t_map. f_equal.
  rewrite <- (map_id (t_data w)) at 2. apply map_ext. intros v. apply Hone.
Qed.

Lemma einsum_dtype eqn t w out :
  einsum_t eqn t w = Ok out ->
  t_dtype out = promote_types (t_dtype t) (t_dtype w).
Proof.
  unfold einsum_t. destruct (einsum_plan _ _ _); [|done]. by intros [= <-].
Qed.

(** C6, amended.  For a multiplier [m] that Python takes as true (a
    non-zero number), [Einsum] configured with [m] returns the array that
    [Einsum] configured with the multiplier 1 returns on the same weight
    and input, with every element multiplied by [m]; when the latter call
    raises, so does the former.  The element arithmetic is assumed
    associative and distributive, with [0 * m = 0] and [v * 1 = v]. *)
Theorem einsum_truthy_multiplier_factors_out self eqn s x t m :
  mul_zero_l -> mul_assoc -> mul_add_distr_r -> mul_one_r -> truthy_one ->
  truthy m = true ->
  heap s !! x = Some t ->
  match Einsum.__call__ (with_multiplier self (of_literal one_literal)) eqn x s with
  | Ok (r1, s1) =>
      exists out1 r s',
        heap s1 !! r1 = Some out1
        /\ Einsum.__call__ (with_multiplier self m) eqn x s = Ok (r, s')
        /\ heap s' !! r = Some (mul_scalar_t out1 m)
  | Err e => Einsum.__call__ (with_multiplier self m) eqn x s = Err e
  end.
Proof.
  intros Hz Ha Hd Hone Ht1 Htm Hx.
  rewrite !(einsum_call_eq _ eqn s x t Hx).
  unfold with_multiplier, effective_weight, scaled_scope.
  cbn [Einsum.shape Einsum.weight_name Einsum.initializer Einsum.dtype
       Einsum.w_scale].
  unfold truthy_one in Ht1. rewrite Ht1, Htm.
  destruct (param _ _ _ _ s) as [[a s2]|e]; [|done].
  destruct (heap s2 !! a) as [w|]; [|done].
  rewrite (mul_scalar_one w Hone).
  set (w1 := Tensor (weak_float_type (t_dtype w)) (t_shape w) (t_data w)).
  assert (Hw : mul_scalar_t w m = mul_scalar_t w1 m).
  { unfold mul_scalar_t, t_map, w1. cbn [t_dtype t_shape t_data].
    by rewrite weak_float_type_idem. }
  rewrite Hw, (einsum_scaled_weight eqn t w1 m Hz Ha Hd).
  destruct (einsum_t eqn t w1) as [out1|e] eqn:He; [|done].
  exists out1. eexists _, _.
  split; [apply lookup_extend_new|]. split; [reflexivity|].
  rewrite lookup_extend_new. f_equal.
  unfold mul_scalar_t, t_map. f_equal.
  rewrite (einsum_dtype _ _ _ _ He). cbn [w1 t_dtype].
  by rewrite weak_float_type_idem, weak_promote_weak.
Qed.

(** C9.  On a call from any scope, let [w] be the array [self.param]
    retrieves.  The call returns the contraction of the input with
    [w * m] (every element of [w] multiplied by [m]) when the configured
    multiplier [m] is a number other than zero, and with [w] itself when
    the multiplier is zero or [None].  The object stored under the weight
    name is still [w] afterwards, so the multiplication happens again on
    the next call. *)
Theorem einsum_multiplies_weight_on_every_call self eqn s x t r s' :
  truthy_nonzero ->
  heap s !! x = Some t ->
  Einsum.__call__ self eqn x s = Ok (r, s') ->
  exists a s2 w used out,
    param (Einsum.weight_name self) (Einsum.initializer self)
          (Einsum.shape self) (Einsum.dtype self) s = Ok (a, s2)
    /\ heap s2 !! a = Some w
    /\ einsum_t eqn t used = Ok out
    /\ heap s' !! r = Some out
    /\ match Einsum.w_scale self with
       | Some m =>
           (m <> fzero ->
            t_shape used = t_shape w
            /\ t_data used = map (fun v => fmul v m) (t_data w))
           /\ (m = fzero -> used = w)
       | None => used = w
       end
    /\ params s' !! Einsum.weight_name self = Some a
    /\ heap s' !! a = Some w.
Proof.
  intros Htr Hx Hrun. rewrite (einsum_call_eq self eqn s x t Hx) in Hrun.
  destruct (param _ _ _ _ s) as [[a s2]|e] eqn:Hp; [|done].
  destruct (heap s2 !! a) as [w|] eqn:Ha; [|done].
  destruct (einsum_t eqn t (effective_weight self w)) as [out|e] eqn:He; [|done].
  injection Hrun as <- <-.
  exists a, s2, w, (effective_weight self w), out.
  split; [done|]. split; [done|]. split; [done|].
  split; [apply lookup_extend_new|]. split.
  - unfold effective_weight. destruct (Einsum.w_scale self) as [m|]; [|done].
    destruct (truthy m) eqn:Htm.
    + split; [done|]. intros ->.
      apply Htr in Htm. done.
    + split; [|done]. intros Hm. apply Htr in Hm. congruence.
  - split.
    + cbn [params extend]. rewrite params_scaled_scope.
      by apply param_stored in Hp.
    + apply lookup_extend_old. by apply preserved_scaled_scope.
Qed.
End Linearity.

(** ** The dtype of the [Einsum] weight *)

Section WeightDtype.
Context {F : Type} `{Scalar F}.
Implicit Types (s : scope F) (t w : tensor F) (self : Einsum.config F).

(** On a floating-point weight [w *= self.w_scale] keeps the dtype. *)
Lemma effective_weight_dtype self w :
  is_floating (t_dtype w) = true ->
  t_dtype (effective_weight self w) = t_dtype w.
Proof.
  intros Hfl. unfold effective_weight.
  destruct (Einsum.w_scale self) as [m|]; [|done].
  destruct (truthy m); [|done].
  cbn. unfold weak_float_type. by rewrite Hfl.
Qed.

Lemma normal_default_dtype (sample : nat -> nat -> F) key sh :
  t_dtype (initializers.normal sample key sh None) = float32.
Proof. reflexivity. Qed.

End WeightDtype.

(** ** The layers on concrete inputs *)

Section ConcreteRuns.
Context {F : Type} `{Scalar F}.

(** A bfloat16 input of shape (1,), no dtype configured, an empty mutable
    collection: the weight is created as float32. *)
Lemma einsum_creates_default_weight (v c : F) :
  Einsum.__call__
    (Einsum.Config [1] "w" (initializers.normal (fun _ _ => c)) None None)
    "i,i->" 0 (Scope [Tensor bfloat16 [1] [v]] ∅ true 0)
  = Ok (2, Scope [Tensor bfloat16 [1] [v]; Tensor float32 [1] [c];
                  Tensor float32 [] [fadd (fmul v c) fzero]]
                 {["w" := 1]} true 0).
Proof. vm_compute. reflexivity. Qed.

(** A stored weight and a multiplier Python takes as false. *)
Lemma einsum_falsy_multiplier (v c m : F) :
  truthy m = false ->
  Einsum.__call__
    (Einsum.Config [1] "w" initializers.zeros_init None (Some m))
    "i,i->" 0
    (Scope [Tensor float32 [1] [v]; Tensor float32 [1] [c]] {["w" := 1]} false 0)
  = Ok (2, Scope [Tensor float32 [1] [v]; Tensor float32 [1] [c];
                  Tensor float32 [] [fadd (fmul v c) fzero]]
                 {["w" := 1]} false 0).
Proof.
  intros Hm. rewrite (einsum_call_eq _ _ _ 0 (Tensor float32 [1] [v])) by done.
  unfold effective_weight, scaled_scope. cbn [Einsum.w_scale].
  rewrite Hm. vm_compute. reflexivity.
Qed.

(** A stored weight and a multiplier Python takes as true. *)
Lemma einsum_truthy_multiplier (v c m : F) :
  truthy m = true ->
  Einsum.__call__
    (Einsum.Config [1] "w" initializers.zeros_init None (Some m))
    "i,i->" 0
    (Scope [Tensor float32 [1] [v]; Tensor float32 [1] [c]] {["w" := 1]} false 0)
  = Ok (3, Scope [Tensor float32 [1] [v]; Tensor float32 [1] [c];
                  Tensor float32 [1] [fmul c m];
                  Tensor float32 [] [fadd (fmul v (fmul c m)) fzero]]
                 {["w" := 1]} false 0).
Proof.
  intros Hm. rewrite (einsum_call_eq _ _ _ 0 (Tensor float32 [1] [v])) by done.
  unfold effective_weight, scaled_scope. cbn [Einsum.w_scale].
  rewrite Hm. vm_compute. reflexivity.
Qed.

(** The scenario of the specification, one row: the unscaled
    normalization of [a; b; c] as a float32 array of shape (1, 3). *)
Lemma rmsnorm_unscaled_row (a b c : F) :
  let ms := fdiv (fadd (fmul a a) (fadd (fmul b b) (fadd (fmul c c) fzero)))
                 (of_nat 3) in
  let inv := frsqrt (fadd ms (of_literal (1 # 1000000))) in
  rms_formula (Tensor float32 [1; 3] [a; b; c])
  = Ok (Tensor float32 [1; 3] [fmul a inv; fmul b inv; fmul c inv]).
Proof. vm_compute. reflexivity. Qed.

(** The whole call on that row, with every array object it allocates. *)
Lemma rmsnorm_unscaled_run (a b c : F) :
  let t0 := Tensor float32 [1; 3] [a; b; c] in
  let ms := fdiv (fadd (fmul a a) (fadd (fmul b b) (fadd (fmul c c) fzero)))
                 (of_nat 3) in
  let inv := frsqrt (fadd ms (of_literal (1 # 1000000))) in
  RMSNorm.__call__ (RMSNorm.Config false initializers.zeros_init true false)
                   0 (Scope [t0] ∅ true 0)
  = Ok (5, Scope [t0;
                  Tensor float32 [1; 3] [fmul a a; fmul b b; fmul c c];
                  Tensor float32 [1; 1] [ms];
                  Tensor float32 [1; 1] [fadd ms (of_literal (1 # 1000000))];
                  Tensor float32 [1; 1] [inv];
                  Tensor float32 [1; 3] [fmul a inv; fmul b inv; fmul c inv]]
                 ∅ true 0).
Proof. vm_compute. reflexivity. Qed.
End ConcreteRuns.

(** ** Over the exact engine *)

Section OverReals.
Local Open Scope R_scope.

Lemma real_truthy_nonzero : @truthy_nonzero R real_scalar.
Proof.
  intros v. cbn. destruct (Req_dec_T v 0) as [->|Hv]; split; try done.
Qed.

Lemma real_one : of_literal one_literal = 1.
Proof. cbn. unfold one_literal, Q2R. cbn. lra. Qed.

Lemma real_truthy_one : @truthy_one R real_scalar.
Proof.
  unfold truthy_one. apply real_truthy_nonzero. rewrite real_one. cbn. lra.
Qed.

Lemma real_eps : of_literal eps_literal = 1 / 1000000.
Proof. cbn. unfold eps_literal, Q2R. cbn. lra. Qed.

End OverReals.

(** ** The theorems at concrete inputs *)

Lemma real_truthy_zero : truthy 0%R = false.
Proof. cbn. by destruct (Req_dec_T 0 0). Qed.

Lemma real_truthy_two : truthy 2%R = true.
Proof. apply real_truthy_nonzero. cbn. lra. Qed.

Lemma rmsnorm_unscaled_equals_formula_witness :
  match rms_formula row with
  | Ok out => exists r s', RMSNorm.__call__ unscaled 0 row_scope = Ok (r, s')
                           /\ heap s' !! r = Some out
  | Err e => RMSNorm.__call__ unscaled 0 row_scope = Err e
  end
  /\ (forall lead d,
        wf_tensor row ->
        t_shape row = lead ++ [d] ->
        rms_formula row
        = Ok (Tensor (weak_float_type (t_dtype row)) (t_shape row)
                     (map (rms_element d (t_data row))
                          (seq 0 (length (t_data row)))))).
Proof.
  apply (rmsnorm_unscaled_equals_formula unscaled row_scope 0 row); reflexivity.
Defined.

Lemma rmsnorm_preserves_shape_witness :
  (forall r s',
      RMSNorm.__call__ scaled_plus_one 0 row_scope = Ok (r, s') ->
      exists out, heap s' !! r = Some out
                  /\ t_shape out = t_shape row
                  /\ heap s' !! 0 = Some row
                  /\ preserved row_scope s')
  /\ (t_shape row <> [] ->
      (RMSNorm.guard_against_excess_precision scaled_plus_one = true ->
       is_floating (t_dtype row) = true) ->
      (RMSNorm.with_scale scaled_plus_one = true ->
       scale_available row_scope (t_shape row)) ->
      exists r s', RMSNorm.__call__ scaled_plus_one 0 row_scope = Ok (r, s')).
Proof.
  apply (rmsnorm_preserves_shape scaled_plus_one row_scope 0 row).
  - apply zeros_init_ok.
  - reflexivity.
Defined.

Lemma einsum_truthy_multiplier_factors_out_witness :
  match Einsum.__call__ (with_multiplier dot_layer (of_literal one_literal))
                        "i,i->" 0 dot_scope with
  | Ok (r1, s1) =>
      exists out1 r s',
        heap s1 !! r1 = Some out1
        /\ Einsum.__call__ (with_multiplier dot_layer 2%R) "i,i->" 0 dot_scope
           = Ok (r, s')
        /\ heap s' !! r = Some (mul_scalar_t out1 2%R)
  | Err e =>
      Einsum.__call__ (with_multiplier dot_layer 2%R) "i,i->" 0 dot_scope = Err e
  end.
Proof.
  exact (einsum_truthy_multiplier_factors_out dot_layer "i,i->" dot_scope 0
           (Tensor float32 [1] [1%R]) 2%R
           real_mul_zero_l real_mul_assoc real_mul_add_distr_r real_mul_one_r
           real_truthy_one real_truthy_two eq_refl).
Defined.

(** C6 as stated fails for the multiplier 0: [if self.w_scale:] is false, the
    weight [1] is used as it is and the contraction with the input [1] gives
    [1*1 + 0]; the layer with multiplier 1 followed by a multiplication by 0
    gives [(1*(1*1) + 0) * 0]. *)
Lemma einsum_zero_multiplier_counterexample :
  exists r1 s1 out1 r s' out,
    Einsum.__call__ (with_multiplier dot_layer (of_literal one_literal))
                    "i,i->" 0 dot_scope = Ok (r1, s1)
    /\ heap s1 !! r1 = Some out1
    /\ Einsum.__call__ (with_multiplier dot_layer 0%R) "i,i->" 0 dot_scope
       = Ok (r, s')
    /\ heap s' !! r = Some out
    /\ out <> mul_scalar_t out1 0%R.
Proof.
  eexists _, _, _, _, _, _.
  split; [exact (einsum_truthy_multiplier 1%R 1%R (of_literal one_literal)
                   real_truthy_one)|].
  split; [reflexivity|].
  split; [exact (einsum_falsy_multiplier 1%R 1%R 0%R real_truthy_zero)|].
  split; [reflexivity|].
  intros Heq. injection Heq as Heq. pose proof real_one as H1.
  cbn in Heq, H1. lra.
Qed.

Lemma einsum_multiplies_weight_on_every_call_witness :
  exists a s2 w used out,
    param "w" initializers.zeros_init [1] None dot_scope = Ok (a, s2)
    /\ heap s2 !! a = Some w
    /\ einsum_t "i,i->" (Tensor float32 [1] [1%R]) used = Ok out
    /\ heap dot_scope_after !! 3 = Some out
    /\ ((2%R <> fzero ->
         t_shape used = t_shape w
         /\ t_data used = map (fun v => fmul v 2%R) (t_data w))
        /\ (2%R = fzero -> used = w))
    /\ params dot_scope_after !! "w" = Some a
    /\ heap dot_scope_after !! a = Some w.
Proof.
  exact (einsum_multiplies_weight_on_every_call
           (with_multiplier dot_layer 2%R) "i,i->" dot_scope 0
           (Tensor float32 [1] [1%R]) _ _
           real_truthy_nonzero eq_refl
           (einsum_truthy_multiplier 1%R 1%R 2%R real_truthy_two)).
Defined.



(** * Further properties of the layers *)

(** ** [self.param] as a value *)

Section ParamValue.
Context {F : Type} `{Scalar F}.
Implicit Types (s : scope F) (t v : tensor F) (init : Initializer F).

Lemma param_as_value name init sh dt s :
  param name init sh dt s
  = match param_value name init sh dt s with
    | Err e => Err e
    | Ok v => Ok (param_addr name s, param_scope name v s)
    end.
Proof.
  unfold param, param_value, param_addr, param_scope.
  destruct (params s !! name) as [a|].
  - destruct (heap s !! a) as [v|]; [|done]. by case_bool_decide.
  - by destruct (is_mutable s).
Qed.

Lemma param_addr_lookup name init sh dt s v :
  param_value name init sh dt s = Ok v ->
  heap (param_scope name v s) !! param_addr name s = Some v.
Proof.
  unfold param_value, param_addr, param_scope.
  destruct (params s !! name) as [a|].
  - destruct (heap s !! a) as [w|] eqn:Ha; [|done].
    case_bool_decide; [|done]. by intros [= <-].
  - destruct (is_mutable s); [|done]. intros _. cbn. by rewrite list_lookup_middle.
Qed.

Lemma param_scope_stored name init sh dt s v :
  param_value name init sh dt s = Ok v ->
  params (param_scope name v s) !! name = Some (param_addr name s).
Proof.
  unfold param_value, param_addr, param_scope.
  destruct (params s !! name) as [a|] eqn:Hn; [done|].
  intros _. cbn. apply lookup_insert_eq.
Qed.

Lemma preserved_param_scope name v s : preserved s (param_scope name v s).
Proof.
  unfold param_scope. destruct (params s !! name); [apply preserved_refl|].
  intros a t Ha. cbn. by apply lookup_app_l_Some.
Qed.

(** A scope that only gained array objects provides the same parameter. *)
Lemma param_value_grown name init sh dt s (l : list (tensor F)) :
  scope_ok s ->
  param_value name init sh dt
    (Scope (heap s ++ l) (params s) (is_mutable s) (rng s))
  = param_value name init sh dt s.
Proof.
  intros Hok. unfold param_value. cbn [params heap is_mutable rng].
  destruct (params s !! name) as [a|] eqn:Hn; [|done].
  apply Hok in Hn. by rewrite lookup_app_l.
Qed.

Lemma param_value_shape name init sh dt s v :
  initializer_ok init ->
  param_value name init sh dt s = Ok v -> t_shape v = sh.
Proof.
  intros Hinit. unfold param_value.
  destruct (params s !! name) as [a|].
  - destruct (heap s !! a) as [w|]; [|done].
    case_bool_decide as Hs; [|done]. intros [= <-]. rewrite Hs. apply Hinit.
  - destruct (is_mutable s); [|done]. intros [= <-]. apply Hinit.
Qed.

Lemma scope_ok_extend s v : scope_ok s -> scope_ok (extend s v).
Proof.
  intros Hok name a Hn. cbn in *. rewrite length_app.
  apply Hok in Hn. lia.
Qed.

Lemma scope_ok_param_scope name v s :
  scope_ok s -> scope_ok (param_scope name v s).
Proof.
  intros Hok. unfold param_scope. destruct (params s !! name); [done|].
  intros name' a Hn. cbn in *. rewrite length_app. cbn.
  destruct (decide (name = name')) as [->|Hne].
  - rewrite lookup_insert_eq in Hn. injection Hn as <-. lia.
  - rewrite lookup_insert_ne in Hn by done. apply Hok in Hn. lia.
Qed.

Lemma heap_wf_extend s v : heap_wf s -> wf_tensor v -> heap_wf (extend s v).
Proof.
  intros Hwf Hv. unfold heap_wf in *. cbn. apply Forall_app. by split; [|constructor].
Qed.

Lemma heap_wf_lookup s a t : heap_wf s -> heap s !! a = Some t -> wf_tensor t.
Proof. intros Hwf Ha. by apply (Forall_lookup_1 _ _ _ _ Hwf Ha). Qed.

Lemma heap_wf_param_scope name v s :
  heap_wf s -> wf_tensor v -> heap_wf (param_scope name v s).
Proof.
  intros Hwf Hv. unfold param_scope. destruct (params s !! name); [done|].
  unfold heap_wf in *. cbn. apply Forall_app. by split; [|constructor].
Qed.

Lemma param_value_wf name init sh dt s v :
  initializer_ok init -> heap_wf s ->
  param_value name init sh dt s = Ok v -> wf_tensor v.
Proof.
  intros Hinit Hwf. unfold param_value.
  destruct (params s !! name) as [a|].
  - destruct (heap s !! a) as [w|] eqn:Ha; [|done].
    case_bool_decide; [|done]. intros [= <-]. by eapply heap_wf_lookup.
  - destruct (is_mutable s); [|done]. intros [= <-]. apply Hinit.
Qed.
End ParamValue.

(** ** The value and the frame of [RMSNorm.__call__] *)

Section RMSNormValue.
Context {F : Type} `{Scalar F}.
Implicit Types (s : scope F) (t n v : tensor F) (self : RMSNorm.config F).

Lemma normalized_grown self s t' var inv n :
  exists l,
    normalized_scope (guard_scope self s t') t' var inv n
    = Scope (heap s ++ l) (params s) (is_mutable s) (rng s).
Proof.
  unfold normalized_scope, guard_scope, extend.
  destruct (RMSNorm.guard_against_excess_precision self); cbn;
    eexists; f_equal; rewrite <- !app_assoc; reflexivity.
Qed.

Lemma scope_ok_grown s (l : list (tensor F)) :
  scope_ok s -> scope_ok (Scope (heap s ++ l) (params s) (is_mutable s) (rng s)).
Proof.
  intros Hok name a Hn. cbn in *. rewrite length_app. apply Hok in Hn. lia.
Qed.

(** The call returns the array [rms_value] and raises the error
    [rms_value] raises. *)
Lemma rms_call_value self s x t :
  scope_ok s ->
  heap s !! x = Some t ->
  match rms_value self s t with
  | Ok out => exists r s', RMSNorm.__call__ self x s = Ok (r, s')
                           /\ heap s' !! r = Some out
  | Err e => RMSNorm.__call__ self x s = Err e
  end.
Proof.
  intros Hok Hx. rewrite (call_eq self s x t Hx). unfold rms_value, rms_formula.
  change (1 # 1000000) with eps_literal.
  destruct (guarded self t) as [t'|e]; [|done].
  destruct (mean_last_t (square_t t')) as [var|e]; [|done].
  destruct (rsqrt_t (add_literal_t var eps_literal)) as [inv|e]; [|done].
  destruct (multiply_t t' inv) as [n|e]; [|done]. cbv zeta.
  destruct (RMSNorm.with_scale self).
  - unfold scale_tail. destruct (last (t_shape t')) as [d|]; [|done].
    destruct (normalized_grown self s t' var inv n) as [l ->].
    rewrite param_as_value, (param_value_grown _ _ _ _ s l Hok).
    destruct (param_value "scale" (RMSNorm.scale_init self) [d] None s)
      as [v|e] eqn:Hv; [|done].
    rewrite <- (param_value_grown _ _ _ _ s l Hok) in Hv.
    rewrite (param_addr_lookup _ _ _ _ _ _ Hv). cbv zeta.
    destruct (multiply_t n _) as [out|e]; [|done].
    eexists _, _. split; [reflexivity|]. apply lookup_extend_new.
  - eexists _, _. split; [reflexivity|]. apply normalized_result.
Qed.

(** What a returned call leaves behind. *)
Lemma rms_call_inv self s x t r s' :
  scope_ok s ->
  heap s !! x = Some t ->
  RMSNorm.__call__ self x s = Ok (r, s') ->
  exists out,
    rms_value self s t = Ok out
    /\ heap s' !! r = Some out
    /\ preserved s s'
    /\ is_mutable s' = is_mutable s
    /\ rng s' = rng s
    /\ scope_ok s'
    /\ if RMSNorm.with_scale self then
         exists t' d v a,
           guarded self t = Ok t'
           /\ last (t_shape t') = Some d
           /\ param_value "scale" (RMSNorm.scale_init self) [d] None s = Ok v
           /\ params s' !! "scale" = Some a
           /\ heap s' !! a = Some v
           /\ match params s !! "scale" with
              | Some _ => params s' = params s
              | None => params s' = <["scale" := a]> (params s)
                        /\ heap s !! a = None
              end
       else params s' = params s.
Proof.
  intros Hok Hx Hrun. rewrite (call_eq self s x t Hx) in Hrun.
  unfold rms_value, rms_formula. change (1 # 1000000) with eps_literal.
  destruct (guarded self t) as [t'|e]; [|done].
  destruct (mean_last_t (square_t t')) as [var|e]; [|done].
  destruct (rsqrt_t (add_literal_t var eps_literal)) as [inv|e]; [|done].
  destruct (multiply_t t' inv) as [n|e]; [|done]. cbv zeta in Hrun.
  destruct (normalized_grown self s t' var inv n) as [l Hl].
  assert (Hp1 : preserved s (normalized_scope (guard_scope self s t') t' var inv n)).
  { eapply preserved_trans; [apply preserved_guard_scope|].
    apply preserved_normalized_scope. }
  destruct (RMSNorm.with_scale self).
  - unfold scale_tail in Hrun.
    destruct (last (t_shape t')) as [d|] eqn:Hlast; [|done].
    rewrite Hl in Hrun, Hp1.
    rewrite param_as_value, (param_value_grown _ _ _ _ s l Hok) in Hrun.
    destruct (param_value "scale" (RMSNorm.scale_init self) [d] None s)
      as [v|e] eqn:Hv; [|done].
    pose proof Hv as Hv'.
    rewrite <- (param_value_grown _ _ _ _ s l Hok) in Hv'.
    set (s1 := Scope (heap s ++ l) (params s) (is_mutable s) (rng s)) in *.
    rewrite (param_addr_lookup _ _ _ _ _ _ Hv') in Hrun. cbv zeta in Hrun.
    destruct (multiply_t n _) as [out|e]; [|done].
    injection Hrun as <- <-. exists out.
    set (s2 := param_scope "scale" v s1).
    set (e1 := expand_dims_t v (seq 0 (length (t_shape t') - 1))).
    set (s4 := if RMSNorm.scale_plus_one self
               then extend (extend s2 e1) (radd_literal_t one_literal e1)
               else extend s2 e1).
    assert (Hp24 : preserved s2 s4).
    { unfold s4. intros b u Hb.
      destruct (RMSNorm.scale_plus_one self); by repeat apply lookup_extend_old. }
    assert (Hf4 : params s4 = params s2 /\ is_mutable s4 = is_mutable s
                  /\ rng s4 = rng s).
    { unfold s4, s2, param_scope, s1. cbn [params].
      destruct (RMSNorm.scale_plus_one self), (params s !! "scale"); done. }
    destruct Hf4 as (Hpar4 & Hm4 & Hr4).
    assert (Hok4 : scope_ok s4).
    { unfold s4. destruct (RMSNorm.scale_plus_one self);
        repeat apply scope_ok_extend;
        apply scope_ok_param_scope, scope_ok_grown, Hok. }
    split; [done|]. split; [apply lookup_extend_new|].
    split.
    { intros b u Hb. apply lookup_extend_old, Hp24, preserved_param_scope.
      by apply Hp1. }
    split; [done|]. split; [done|].
    split; [by apply scope_ok_extend|].
    exists t', d, v, (param_addr "scale" s1).
    split; [done|]. split; [done|]. split; [done|].
    split.
    { cbn [params extend]. rewrite Hpar4.
      by apply (param_scope_stored _ _ _ _ _ _ Hv'). }
    split.
    { apply lookup_extend_old, Hp24. by apply (param_addr_lookup _ _ _ _ _ _ Hv'). }
    cbn [params extend]. rewrite Hpar4.
    unfold s2, param_scope, param_addr, s1. cbn [params heap].
    destruct (params s !! "scale"); [done|]. split; [done|].
    apply lookup_ge_None. rewrite length_app. lia.
  - injection Hrun as <- <-. exists n.
    split; [done|]. split; [apply normalized_result|].
    split; [done|]. rewrite Hl. cbn.
    split; [done|]. split; [done|]. split; [|done].
    by apply scope_ok_grown.
Qed.
End RMSNormValue.

(** ** Calling [RMSNorm] again, and what a call leaves in the scope *)

Section RMSNormScope.
Context {F : Type} `{Scalar F}.
Implicit Types (s : scope F) (t n v : tensor F) (self : RMSNorm.config F).

(** A second call on the same input, from the scope the first call left,
    finds the [scale] parameter the first call used: it returns an array
    equal to the first result and leaves the parameter collection as it
    is. *)
Theorem rmsnorm_second_call_same_result self s x t r s' :
  initializer_ok (RMSNorm.scale_init self) ->
  scope_ok s ->
  heap s !! x = Some t ->
  RMSNorm.__call__ self x s = Ok (r, s') ->
  exists out r2 s2,
    heap s' !! r = Some out
    /\ RMSNorm.__call__ self x s' = Ok (r2, s2)
    /\ heap s2 !! r2 = Some out
    /\ params s2 = params s'.
Proof.
  intros Hinit Hok Hx Hrun.
  destruct (rms_call_inv self s x t r s' Hok Hx Hrun)
    as (out & Hval & Hr & Hpres & Hmut & Hrng & Hok' & Hscale).
  assert (Hx' : heap s' !! x = Some t) by by apply Hpres.
  assert (Hval' : rms_value self s' t = Ok out).
  { revert Hval. unfold rms_value.
    destruct (guarded self t) as [t'|e] eqn:Hg; [|done].
    destruct (rms_formula t') as [n|e]; [|done].
    destruct (RMSNorm.with_scale self); [|done].
    destruct Hscale as (t'' & d & v & a & Ht'' & Hlast & Hv & Ha & Hav & _).
    injection Ht'' as <-. rewrite Hlast, Hv.
    intros Hm. unfold param_value. rewrite Ha, Hav.
    rewrite bool_decide_eq_true_2; [done|].
    rewrite (param_value_shape _ _ _ _ _ _ Hinit Hv). symmetry. apply Hinit. }
  pose proof (rms_call_value self s' x t Hok' Hx') as Hcall.
  rewrite Hval' in Hcall. destruct Hcall as (r2 & s2 & Hrun2 & Hr2).
  exists out, r2, s2. split; [done|]. split; [done|]. split; [done|].
  destruct (rms_call_inv self s' x t r2 s2 Hok' Hx' Hrun2)
    as (_ & _ & _ & _ & _ & _ & _ & Hscale2).
  destruct (RMSNorm.with_scale self); [|done].
  destruct Hscale as (t1 & d1 & v1 & a & _ & _ & _ & Ha & _ & _).
  destruct Hscale2 as (t2 & d2 & v2 & a2 & _ & _ & _ & _ & _ & Hpar).
  by rewrite Ha in Hpar.
Qed.

(** The call changes no array object that existed, nor the mutability flag
    or the PRNG key.  The parameter collection is as before when
    [with_scale] is off or [scale] is already stored; otherwise it gains
    exactly the entry [scale], a fresh object that holds
    [scale_init(key, (d,))] for the length [d] of the input's last axis. *)
Theorem rmsnorm_parameter_frame self s x t r s' :
  scope_ok s ->
  heap s !! x = Some t ->
  RMSNorm.__call__ self x s = Ok (r, s') ->
  preserved s s'
  /\ is_mutable s' = is_mutable s
  /\ rng s' = rng s
  /\ (RMSNorm.with_scale self = false \/ is_Some (params s !! "scale") ->
      params s' = params s)
  /\ (RMSNorm.with_scale self = true -> params s !! "scale" = None ->
      exists a d,
        last (t_shape t) = Some d
        /\ heap s !! a = None
        /\ params s' = <["scale" := a]> (params s)
        /\ heap s' !! a = Some (RMSNorm.scale_init self (rng s) [d] None)).
Proof.
  intros Hok Hx Hrun.
  destruct (rms_call_inv self s x t r s' Hok Hx Hrun)
    as (out & Hval & Hr & Hpres & Hmut & Hrng & Hok' & Hscale).
  split; [done|]. split; [done|]. split; [done|]. split.
  - intros Hcase. destruct (RMSNorm.with_scale self); [|done].
    destruct Hcase as [|[a0 Ha0]]; [done|].
    destruct Hscale as (t1 & d1 & v1 & a1 & _ & _ & _ & _ & _ & Hpar).
    by rewrite Ha0 in Hpar.
  - intros Hws Hnone. rewrite Hws in Hscale.
    destruct Hscale as (t' & d & v & a & Hg & Hlast & Hv & Ha & Hav & Hpar).
    rewrite Hnone in Hpar. destruct Hpar as [Hpar Hfresh].
    apply guarded_inv in Hg as [Hsh _].
    exists a, d. rewrite <- Hsh. split; [done|]. split; [done|]. split; [done|].
    unfold param_value in Hv. rewrite Hnone in Hv.
    destruct (is_mutable s); [|done]. by injection Hv as <-.
Qed.

(** The call returns exactly on the inputs that have a last axis, are
    floating when the precision guard is on, and for which the [scale]
    parameter is stored with the shape (d,) or can be created; on every
    other input it raises. *)
Theorem rmsnorm_returns_iff self s x t :
  initializer_ok (RMSNorm.scale_init self) ->
  scope_ok s ->
  heap s !! x = Some t ->
  (exists r s', RMSNorm.__call__ self x s = Ok (r, s'))
  <-> (t_shape t <> []
       /\ (RMSNorm.guard_against_excess_precision self = true ->
           is_floating (t_dtype t) = true)
       /\ (RMSNorm.with_scale self = true -> scale_available s (t_shape t))).
Proof.
  intros Hinit Hok Hx. split.
  - intros (r & s' & Hrun).
    destruct (rms_call_inv self s x t r s' Hok Hx Hrun)
      as (out & Hval & _ & _ & _ & _ & _ & Hscale).
    unfold rms_value in Hval.
    destruct (guarded self t) as [t'|e] eqn:Hg; [|done].
    destruct (rms_formula t') as [n|e] eqn:Hf; [|done].
    pose proof (guarded_inv _ _ _ Hg) as [Hsh Hdt].
    apply rms_formula_inv in Hf as (lead & d & Hlead & _).
    split; [rewrite <- Hsh, Hlead; by destruct lead|]. split.
    + intros Hguard. unfold guarded in Hg. rewrite Hguard in Hg.
      rewrite <- jnp_finfo_floating. by destruct (jnp_finfo (t_dtype t)).
    + intros Hws. rewrite Hws in Hscale.
      destruct Hscale as (t'' & d' & v & a & Ht'' & Hlast & Hv & _).
      injection Ht'' as <-. unfold scale_available.
      pose proof (param_value_shape _ _ _ _ _ _ Hinit Hv) as Hvs.
      unfold param_value in Hv.
      destruct (params s !! "scale") as [a0|].
      * destruct (heap s !! a0) as [w|]; [|done].
        case_bool_decide; [|done]. injection Hv as ->.
        exists v. split; [done|]. intros d0 Hd0.
        rewrite <- Hsh, Hlast in Hd0. by injection Hd0 as <-.
      * by destruct (is_mutable s).
  - intros (Hne & Hfl & Hav).
    by apply (call_shape_and_defined self s x t Hinit Hx).
Qed.
End RMSNormScope.

(** ** Well-formed scopes stay well formed *)

Section ScopeInvariant.
Context {F : Type} `{Scalar F}.
Implicit Types (s : scope F) (t n v : tensor F).

Lemma wf_t_map d (f : F -> F) t : wf_tensor t -> wf_tensor (t_map d f t).
Proof. unfold wf_tensor, t_map. cbn. by rewrite length_map. Qed.

Lemma wf_mean_last t var : mean_last_t t = Ok var -> wf_tensor var.
Proof.
  unfold mean_last_t. destruct (rev (t_shape t)) as [|d lead]; [done|].
  intros [= <-]. unfold wf_tensor. cbn [t_data t_shape].
  rewrite length_map, length_seq, numel_snoc. lia.
Qed.

Lemma wf_rsqrt t u : rsqrt_t t = Ok u -> wf_tensor t -> wf_tensor u.
Proof.
  unfold rsqrt_t. destruct (is_floating _); [|done]. intros [= <-].
  apply wf_t_map.
Qed.

Lemma wf_guarded (self : RMSNorm.config F) t t' :
  guarded self t = Ok t' -> wf_tensor t -> wf_tensor t'.
Proof.
  unfold guarded. destruct (RMSNorm.guard_against_excess_precision self).
  - destruct (jnp_finfo (t_dtype t)); [|done]. intros [= <-]. apply wf_t_map.
  - by intros [= <-].
Qed.

Lemma numel_leading_ones k (sh : list nat) : numel (replicate k 1 ++ sh) = numel sh.
Proof.
  induction k as [|k IH]; [done|]. cbn. fold (numel (replicate k 1 ++ sh)).
  rewrite IH. lia.
Qed.

Lemma wf_expand_dims_range v k :
  wf_tensor v -> wf_tensor (expand_dims_t v (seq 0 k)).
Proof.
  unfold wf_tensor, expand_dims_t. cbn [t_data t_shape]. intros Hv.
  by rewrite expand_shape_range, numel_leading_ones.
Qed.

(** Every array object the call allocates is well formed, and the
    parameter names keep referring to existing objects: a scope that is in
    order before a call of [RMSNorm] is in order after it. *)
Theorem rmsnorm_keeps_scope_in_order (self : RMSNorm.config F) s x t r s' :
  initializer_ok (RMSNorm.scale_init self) ->
  scope_ok s ->
  heap_wf s ->
  heap s !! x = Some t ->
  RMSNorm.__call__ self x s = Ok (r, s') ->
  scope_ok s' /\ heap_wf s'.
Proof.
  intros Hinit Hok Hwf Hx Hrun. split.
  { by destruct (rms_call_inv self s x t r s' Hok Hx Hrun)
      as (out & _ & _ & _ & _ & _ & Hok' & _). }
  pose proof (heap_wf_lookup _ _ _ Hwf Hx) as Ht.
  rewrite (call_eq self s x t Hx) in Hrun.
  destruct (guarded self t) as [t'|e] eqn:Hg; [|done].
  pose proof (wf_guarded _ _ _ Hg Ht) as Ht'.
  destruct (mean_last_t (square_t t')) as [var|e] eqn:Hm; [|done].
  destruct (rsqrt_t (add_literal_t var eps_literal)) as [inv|e] eqn:Hr; [|done].
  destruct (multiply_t t' inv) as [n|e] eqn:Hn; [|done]. cbv zeta in Hrun.
  pose proof (wf_mean_last _ _ Hm) as Hvar.
  assert (Hsh : wf_tensor (add_literal_t var eps_literal)) by by apply wf_t_map.
  pose proof (wf_rsqrt _ _ Hr Hsh) as Hinv.
  apply multiply_inv in Hn as (_ & _ & Hnwf).
  assert (H1 : heap_wf (normalized_scope (guard_scope self s t') t' var inv n)).
  { unfold normalized_scope. repeat apply heap_wf_extend; try done.
    - unfold guard_scope.
      destruct (RMSNorm.guard_against_excess_precision self); [|done].
      by apply heap_wf_extend.
    - by apply wf_t_map. }
  destruct (RMSNorm.with_scale self).
  - unfold scale_tail in Hrun. destruct (last (t_shape t')) as [d|]; [|done].
    rewrite param_as_value in Hrun.
    destruct (param_value "scale" _ [d] None _) as [v|e] eqn:Hv; [|done].
    rewrite (param_addr_lookup _ _ _ _ _ _ Hv) in Hrun. cbv zeta in Hrun.
    destruct (multiply_t n _) as [out|e] eqn:Hout; [|done].
    injection Hrun as <- <-.
    pose proof (param_value_wf _ _ _ _ _ _ Hinit H1 Hv) as Hvwf.
    apply multiply_inv in Hout as (_ & _ & Houtwf).
    apply heap_wf_extend; [|done].
    destruct (RMSNorm.scale_plus_one self); repeat apply heap_wf_extend;
      try (by apply heap_wf_param_scope);
      try (by apply wf_expand_dims_range).
    by apply wf_t_map, wf_expand_dims_range.
  - by injection Hrun as <- <-.
Qed.

(** [reduce_precision] keeps a scope in order: the array it allocates has
    as many elements as the input. *)
Theorem reduce_precision_keeps_scope_in_order s x t r s' :
  scope_ok s ->
  heap_wf s ->
  heap s !! x = Some t ->
  reduce_precision x s = Ok (r, s') ->
  scope_ok s' /\ heap_wf s'
  /\ exists out, heap s' !! r = Some out
                 /\ length (t_data out) = length (t_data t).
Proof.
  intros Hok Hwf Hx Hrun. rewrite (reduce_precision_eq _ _ _ Hx) in Hrun.
  destruct (jnp_finfo (t_dtype t)) as [fi|e]; [|done].
  injection Hrun as <- <-.
  split; [by apply scope_ok_extend|]. split.
  - apply heap_wf_extend; [done|]. apply wf_t_map. by eapply heap_wf_lookup.
  - eexists. split; [apply lookup_extend_new|]. cbn. by rewrite length_map.
Qed.
End ScopeInvariant.

(** ** The value and the frame of [Einsum.__call__] *)

Section EinsumScope.
Context {F : Type} `{Scalar F}.
Implicit Types (s : scope F) (t w : tensor F) (self : Einsum.config F).

(** The scope the call leaves when it contracts against the weight [w]. *)
Lemma einsum_call_as_value self eqn s x t :
  heap s !! x = Some t ->
  Einsum.__call__ self eqn x s
  = match param_value (Einsum.weight_name self) (Einsum.initializer self)
                      (Einsum.shape self) (Einsum.dtype self) s with
    | Err e => Err e
    | Ok w =>
        match einsum_t eqn t (effective_weight self w) with
        | Err e => Err e
        | Ok out =>
            let s2 := scaled_scope self
                        (param_scope (Einsum.weight_name self) w s) w in
            Ok (length (heap s2), extend s2 out)
        end
    end.
Proof.
  intros Hx. rewrite (einsum_call_eq self eqn s x t Hx), param_as_value.
  destruct (param_value _ _ _ _ s) as [w|e] eqn:Hw; [|done].
  by rewrite (param_addr_lookup _ _ _ _ _ _ Hw).
Qed.

Lemma einsum_call_is_value self eqn s x t :
  heap s !! x = Some t ->
  match einsum_value self eqn s t with
  | Ok out => exists r s', Einsum.__call__ self eqn x s = Ok (r, s')
                           /\ heap s' !! r = Some out
  | Err e => Einsum.__call__ self eqn x s = Err e
  end.
Proof.
  intros Hx. rewrite (einsum_call_as_value self eqn s x t Hx).
  unfold einsum_value.
  destruct (param_value _ _ _ _ s) as [w|e]; [|done].
  destruct (einsum_t eqn t (effective_weight self w)) as [out|e]; [|done].
  eexists _, _. split; [reflexivity|]. apply lookup_extend_new.
Qed.



End EinsumScope.

Section EinsumInvariant.
Context {F : Type} `{Scalar F}.
Implicit Types (s : scope F) (t w : tensor F) (self : Einsum.config F).

(** A plan lists one sum of products per element of the result shape. *)
Lemma einsum_plan_size eqn sx sw p :
  einsum_plan eqn sx sw = Ok p -> length (terms p) = numel (out_shape p).
Proof.
  unfold einsum_plan. intros Hp.
  repeat case_match; try discriminate;
    injection Hp as <-; cbn [terms out_shape];
    by rewrite length_map, indices_length.
Qed.

Lemma wf_einsum eqn t w out : einsum_t eqn t w = Ok out -> wf_tensor out.
Proof.
  unfold einsum_t. destruct (einsum_plan _ _ _) as [p|e] eqn:Hp; [|done].
  intros [= <-]. unfold wf_tensor. cbn [t_data t_shape].
  rewrite length_map. by apply einsum_plan_size in Hp.
Qed.

Lemma scope_ok_scaled_scope self s w :
  scope_ok s -> scope_ok (scaled_scope self s w).
Proof.
  intros Hok. unfold scaled_scope.
  destruct (Einsum.w_scale self) as [m|]; [destruct (truthy m)|]; try done.
  by apply scope_ok_extend.
Qed.

Lemma heap_wf_scaled_scope self s w :
  heap_wf s -> wf_tensor w -> heap_wf (scaled_scope self s w).
Proof.
  intros Hwf Hw. unfold scaled_scope.
  destruct (Einsum.w_scale self) as [m|]; [destruct (truthy m)|]; try done.
  apply heap_wf_extend; [done|]. by apply wf_t_map.
Qed.

(** A scope that is in order before a call of [Einsum] is in order after
    it: the created weight, the multiplied weight and the result are well
    formed, and the weight name refers to an existing object. *)
Theorem einsum_keeps_scope_in_order self eqn s x t r s' :
  initializer_ok (Einsum.initializer self) ->
  scope_ok s ->
  heap_wf s ->
  heap s !! x = Some t ->
  Einsum.__call__ self eqn x s = Ok (r, s') ->
  scope_ok s' /\ heap_wf s'
  /\ exists out, heap s' !! r = Some out /\ wf_tensor out.
Proof.
  intros Hinit Hok Hwf Hx Hrun.
  rewrite (einsum_call_as_value self eqn s x t Hx) in Hrun.
  destruct (param_value _ _ _ _ s) as [w|e] eqn:Hw; [|done].
  destruct (einsum_t eqn t (effective_weight self w)) as [out|e] eqn:He; [|done].
  cbv zeta in Hrun. injection Hrun as <- <-.
  pose proof (param_value_wf _ _ _ _ _ _ Hinit Hwf Hw) as Hwwf.
  pose proof (wf_einsum _ _ _ _ He) as Hout.
  split; [by apply scope_ok_extend, scope_ok_scaled_scope, scope_ok_param_scope|].
  split.
  - apply heap_wf_extend; [|done].
    apply heap_wf_scaled_scope; [|done]. by apply heap_wf_param_scope.
  - exists out. split; [apply lookup_extend_new|done].
Qed.
End EinsumInvariant.

(** ** The learned scale acts per channel *)

Section PerChannel.
Context {F : Type} `{Scalar F}.
Implicit Types (s : scope F) (t n v m : tensor F) (self : RMSNorm.config F).

Lemma get_map (f : F -> F) (l : list F) j :
  j < length l -> get (map f l) j = f (get l j).
Proof.
  intros Hj. unfold get. change (map f l) with (f <$> l).
  rewrite list_lookup_fmap.
  destruct (lookup_lt_is_Some_2 l j Hj) as [a ->]. reflexivity.
Qed.

(** The offset read in a (1, .., 1, d) operand is the position along the
    last axis. *)
Lemma trailing_offset_mod lead d idx :
  Forall2 lt idx (lead ++ [d]) ->
  ravel (replicate (length lead) 1 ++ [d])
        (bcast_index (replicate (length lead) 1 ++ [d]) idx)
  = ravel (lead ++ [d]) idx mod d.
Proof.
  intros Hb. apply Forall2_app_inv_r in Hb as (pre & js & Hpre & Hj & ->).
  apply Forall2_cons_inv_r in Hj as (j & js' & Hj & Hnil & ->).
  apply Forall2_nil_inv_r in Hnil as ->.
  pose proof (Forall2_length _ _ _ Hpre) as Hlen.
  unfold bcast_index.
  rewrite !length_app, length_replicate, Hlen. cbn [length].
  rewrite Nat.sub_diag, drop_0.
  rewrite zip_with_app by (by rewrite length_replicate).
  rewrite <- Hlen, pin_leading. cbn [zip_with].
  rewrite ravel_leading_zeros, ravel_snoc by done.
  rewrite Nat.add_comm, Nat.Div0.mod_add, Nat.mod_small by done.
  destruct (Nat.eqb_spec d 1); lia.
Qed.

(** Multiplying by a (1, .., 1, d) operand multiplies element [k] by the
    entry [k mod d] of that operand. *)
Lemma multiply_row_vector n m lead d :
  wf_tensor n ->
  t_shape n = lead ++ [d] ->
  t_shape m = replicate (length lead) 1 ++ [d] ->
  multiply_t n m
  = Ok (Tensor (promote_types (t_dtype n) (t_dtype m)) (lead ++ [d])
               (map (fun k => fmul (get (t_data n) k) (get (t_data m) (k mod d)))
                    (seq 0 (length (t_data n))))).
Proof.
  intros Hwf Hn Hm. unfold multiply_t.
  rewrite Hn, Hm, broadcast_expanded.
  apply (f_equal Ok), (f_equal (Tensor _ _)).
  rewrite Hwf, Hn, <- (ravel_indices (lead ++ [d])).
  rewrite (map_map (ravel (lead ++ [d]))).
  apply map_ext_in. intros idx Hin. apply indices_bounded in Hin.
  by rewrite (bcast_index_same _ _ Hin), (trailing_offset_mod _ _ _ Hin).
Qed.

Lemma scale_multiplier_entry self rank v j :
  j < length (t_data v) ->
  get (t_data (scale_multiplier self rank v)) j = scale_factor self v j.
Proof.
  intros Hj. unfold scale_multiplier, scale_factor.
  destruct (RMSNorm.scale_plus_one self); cbn [radd_literal_t t_map expand_dims_t t_data];
    [by rewrite get_map|done].
Qed.

(** With [with_scale] on, element [k] of the result is the normalized
    element [k] (of the input, or of the precision-reduced input) times
    the factor of channel [k mod d]: [1 + scale_j] or [scale_j], for the
    scale vector that is stored under ["scale"] after the call. *)
Theorem rmsnorm_scale_is_per_channel self s x t r s' lead d :
  initializer_ok (RMSNorm.scale_init self) ->
  scope_ok s ->
  heap_wf s ->
  heap s !! x = Some t ->
  t_shape t = lead ++ [d] ->
  RMSNorm.with_scale self = true ->
  RMSNorm.__call__ self x s = Ok (r, s') ->
  exists t' a v out,
    guarded self t = Ok t'
    /\ params s' !! "scale" = Some a
    /\ heap s' !! a = Some v
    /\ t_shape v = [d]
    /\ heap s' !! r = Some out
    /\ t_shape out = lead ++ [d]
    /\ t_data out
       = map (fun k => fmul (rms_element d (t_data t') k)
                            (scale_factor self v (k mod d)))
             (seq 0 (length (t_data t))).
Proof.
  intros Hinit Hok Hwf Hx Hsh Hws Hrun.
  destruct (rms_call_inv self s x t r s' Hok Hx Hrun)
    as (out & Hval & Hr & _ & _ & _ & _ & Hscale).
  rewrite Hws in Hscale.
  destruct Hscale as (t' & d' & v & a & Hg & Hlast & Hv & Ha & Hav & _).
  pose proof (heap_wf_lookup _ _ _ Hwf Hx) as Ht.
  pose proof (wf_guarded _ _ _ Hg Ht) as Ht'.
  pose proof (guarded_inv _ _ _ Hg) as [Hsh' _].
  assert (Hlen : length (t_data t') = length (t_data t)).
  { unfold wf_tensor in Ht, Ht'. by rewrite Ht, Ht', Hsh'. }
  rewrite Hsh', Hsh, last_snoc_shape in Hlast. injection Hlast as <-.
  pose proof (param_value_shape _ _ _ _ _ _ Hinit Hv) as Hvs.
  pose proof (param_value_wf _ _ _ _ _ _ Hinit Hwf Hv) as Hvwf.
  unfold wf_tensor in Hvwf. rewrite Hvs in Hvwf. cbn in Hvwf.
  rewrite Nat.mul_1_r in Hvwf.
  unfold rms_value in Hval. rewrite Hg, Hws in Hval.
  rewrite (rms_formula_elementwise t' lead d Ht') in Hval by by rewrite Hsh', Hsh.
  rewrite Hsh', Hsh, last_snoc_shape, Hv in Hval.
  rewrite (multiply_row_vector _ _ lead d) in Hval; cycle 1.
  { unfold wf_tensor. cbn [t_data t_shape].
    rewrite length_map, length_seq. unfold wf_tensor in Ht'.
    by rewrite Ht', Hsh', Hsh. }
  { done. }
  { by apply scale_multiplier_shape. }
  injection Hval as <-.
  exists t', a, v. eexists. split; [done|]. split; [done|]. split; [done|].
  split; [done|]. split; [exact Hr|]. split; [done|].
  cbn [t_data]. rewrite length_map, length_seq, Hlen.
  apply map_ext_in. intros k Hk. apply in_seq in Hk.
  rewrite get_map_seq by lia.
  rewrite scale_multiplier_entry; [done|].
  rewrite Hvwf. apply Nat.mod_upper_bound.
  intros ->. unfold wf_tensor in Ht. rewrite Hsh, numel_snoc in Ht. lia.
Qed.
End PerChannel.

(** ** The precision guard and the dtype of the result *)

Section GuardAndDtype.
Context {F : Type} `{Scalar F}.
Implicit Types (s : scope F) (t n v : tensor F) (self : RMSNorm.config F).

Lemma reduced_twice (fi : finfo) t :
  round_idempotent -> reduced fi (reduced fi t) = reduced fi t.
Proof.
  intros Hround. unfold reduced, t_map. cbn [t_dtype t_shape t_data].
  f_equal. rewrite map_map. apply map_ext. intros a. apply Hround.
Qed.

(** With the guard on and an idempotent rounding, the layer does not tell
    an input from its precision-reduced copy: on [reduce_precision(x)] it
    returns the array it returns on [x], and raises when it raises on
    [x]. *)
Theorem rmsnorm_guard_absorbs_reduce_precision self s x t x' s0 :
  round_idempotent ->
  RMSNorm.guard_against_excess_precision self = true ->
  scope_ok s ->
  heap s !! x = Some t ->
  reduce_precision x s = Ok (x', s0) ->
  match RMSNorm.__call__ self x s with
  | Ok (r, s') =>
      exists out r2 s2,
        heap s' !! r = Some out
        /\ RMSNorm.__call__ self x' s0 = Ok (r2, s2)
        /\ heap s2 !! r2 = Some out
  | Err e => RMSNorm.__call__ self x' s0 = Err e
  end.
Proof.
  intros Hround Hg Hok Hx Hred.
  rewrite (reduce_precision_eq _ _ _ Hx) in Hred.
  destruct (jnp_finfo (t_dtype t)) as [fi|e] eqn:Hfi; [|done].
  injection Hred as <- <-.
  set (t0 := t_map (t_dtype t) (fround (nexp fi) (nmant fi)) t).
  assert (Hx0 : heap (extend s t0) !! length (heap s) = Some t0)
    by apply lookup_extend_new.
  assert (Hok0 : scope_ok (extend s t0)) by by apply scope_ok_extend.
  assert (Hval : rms_value self (extend s t0) t0 = rms_value self s t).
  { unfold rms_value, guarded. rewrite Hg.
    change (t_dtype t0) with (t_dtype t). rewrite Hfi.
    change t0 with (reduced fi t). rewrite (reduced_twice fi t Hround).
    destruct (rms_formula (reduced fi t)) as [n|e]; [|done].
    destruct (RMSNorm.with_scale self); [|done].
    destruct (last (t_shape (reduced fi t))) as [d|]; [|done].
    unfold extend. by rewrite (param_value_grown _ _ _ _ s [reduced fi t] Hok). }
  pose proof (rms_call_value self s x t Hok Hx) as Hc.
  pose proof (rms_call_value self (extend s t0) (length (heap s)) t0 Hok0 Hx0) as Hc0.
  rewrite Hval in Hc0.
  destruct (rms_value self s t) as [out|e].
  - destruct Hc as (r & s' & -> & Hr). destruct Hc0 as (r2 & s2 & Hrun2 & Hr2).
    by exists out, r2, s2.
  - by rewrite Hc.
Qed.

Lemma rms_formula_dtype t n :
  rms_formula t = Ok n -> t_dtype n = weak_float_type (t_dtype t).
Proof.
  unfold rms_formula.
  destruct (mean_last_t (square_t t)) as [var|e] eqn:Hm; [|done].
  apply mean_last_inv in Hm as (_ & _ & _ & _ & Hdt). cbn in Hdt.
  unfold rsqrt_t, add_literal_t, t_map. cbn [t_dtype].
  destruct (is_floating _); [|done]. intros Hn.
  apply multiply_inv in Hn as (_ & -> & _). cbn [t_dtype].
  by rewrite Hdt, weak_float_type_idem, promote_with_weak.
Qed.

(** The dtype of the result.  Without the learned scale it is the input's
    dtype for a floating input and float32 for an integer one (which the
    layer accepts when the guard is off).  With a floating-point learned
    scale it is that dtype promoted with the dtype of the stored scale, so
    a bfloat16 input multiplied by a float32 scale gives a float32
    result. *)
Theorem rmsnorm_result_dtype self s x t r s' :
  scope_ok s ->
  heap s !! x = Some t ->
  RMSNorm.__call__ self x s = Ok (r, s') ->
  exists out,
    heap s' !! r = Some out
    /\ (RMSNorm.with_scale self = false ->
        t_dtype out = weak_float_type (t_dtype t)
        /\ (is_floating (t_dtype t) = true -> t_dtype out = t_dtype t))
    /\ (RMSNorm.with_scale self = true ->
        exists a v,
          params s' !! "scale" = Some a
          /\ heap s' !! a = Some v
          /\ (is_floating (t_dtype v) = true ->
              t_dtype out
              = promote_types (weak_float_type (t_dtype t)) (t_dtype v))).
Proof.
  intros Hok Hx Hrun.
  destruct (rms_call_inv self s x t r s' Hok Hx Hrun)
    as (out & Hval & Hr & _ & _ & _ & _ & Hscale).
  exists out. split; [done|].
  unfold rms_value in Hval.
  destruct (guarded self t) as [t'|e] eqn:Hg; [|done].
  apply guarded_inv in Hg as [_ Hdt].
  destruct (rms_formula t') as [n|e] eqn:Hf; [|done].
  apply rms_formula_dtype in Hf. rewrite Hdt in Hf.
  destruct (RMSNorm.with_scale self); split; try done.
  - intros _.
    destruct Hscale as (t'' & d & v & a & Ht'' & Hlast & Hv & Ha & Hav & _).
    injection Ht'' as <-. rewrite Hlast, Hv in Hval.
    apply multiply_inv in Hval as (_ & -> & _).
    exists a, v. split; [done|]. split; [done|].
    intros Hfl. rewrite Hf. f_equal.
    unfold scale_multiplier.
    destruct (RMSNorm.scale_plus_one self); [|done].
    cbn. unfold weak_float_type. by rewrite Hfl.
  - intros _. injection Hval as <-. split; [done|].
    intros Hfl. rewrite Hf. unfold weak_float_type. by rewrite Hfl.
Qed.
End GuardAndDtype.


(** ** The further properties at concrete inputs *)

Section RowRunLemmas.
Context {F : Type} `{Scalar F}.

Lemma rmsnorm_scaled_run (a b c : F) :
  RMSNorm.__call__ (RMSNorm.Config true initializers.zeros_init true false)
                   0 (Scope [Tensor float32 [1; 3] [a; b; c]] ∅ true 0)
  = Ok (9, scaled_run_scope a b c).
Proof. vm_compute. reflexivity. Qed.

Lemma rmsnorm_unscaled_run_scope (a b c : F) :
  RMSNorm.__call__ (RMSNorm.Config false initializers.zeros_init true false)
                   0 (Scope [Tensor float32 [1; 3] [a; b; c]] ∅ true 0)
  = Ok (5, unscaled_run_scope a b c).
Proof. vm_compute. reflexivity. Qed.

Lemma reduce_precision_run (a b c : F) :
  reduce_precision 0 (Scope [Tensor float32 [1; 3] [a; b; c]] ∅ true 0)
  = Ok (1, reduced_run_scope a b c).
Proof. vm_compute. reflexivity. Qed.
End RowRunLemmas.

Lemma row_scope_ok : scope_ok row_scope.
Proof. intros name a Hn. cbn in Hn. by rewrite lookup_empty in Hn. Qed.

Lemma row_scope_wf : heap_wf row_scope.
Proof. repeat constructor. Qed.

Lemma dot_scope_ok : scope_ok dot_scope.
Proof.
  intros name a Hn. cbn in Hn.
  apply lookup_singleton_Some in Hn as [_ <-]. cbn. lia.
Qed.

Lemma dot_scope_wf : heap_wf dot_scope.
Proof. repeat constructor. Qed.

Lemma rmsnorm_second_call_same_result_witness :
  exists out r2 s2,
    heap (scaled_run_scope 3%R 4%R 0%R) !! 9 = Some out
    /\ RMSNorm.__call__ scaled_plus_one 0 (scaled_run_scope 3%R 4%R 0%R)
       = Ok (r2, s2)
    /\ heap s2 !! r2 = Some out
    /\ params s2 = params (scaled_run_scope 3%R 4%R 0%R).
Proof.
  exact (rmsnorm_second_call_same_result scaled_plus_one row_scope 0 row 9 _
           zeros_init_ok row_scope_ok eq_refl
           (rmsnorm_scaled_run 3%R 4%R 0%R)).
Defined.

Lemma rmsnorm_parameter_frame_witness :
  preserved row_scope (scaled_run_scope 3%R 4%R 0%R)
  /\ is_mutable (scaled_run_scope 3%R 4%R 0%R) = is_mutable row_scope
  /\ rng (scaled_run_scope 3%R 4%R 0%R) = rng row_scope
  /\ (RMSNorm.with_scale scaled_plus_one = false
      \/ is_Some (params row_scope !! "scale") ->
      params (scaled_run_scope 3%R 4%R 0%R) = params row_scope)
  /\ (RMSNorm.with_scale scaled_plus_one = true ->
      params row_scope !! "scale" = None ->
      exists a d,
        last (t_shape row) = Some d
        /\ heap row_scope !! a = None
        /\ params (scaled_run_scope 3%R 4%R 0%R)
           = <["scale" := a]> (params row_scope)
        /\ heap (scaled_run_scope 3%R 4%R 0%R) !! a
           = Some (RMSNorm.scale_init scaled_plus_one (rng row_scope) [d] None)).
Proof.
  exact (rmsnorm_parameter_frame scaled_plus_one row_scope 0 row 9 _
           row_scope_ok eq_refl (rmsnorm_scaled_run 3%R 4%R 0%R)).
Defined.

Lemma rmsnorm_returns_iff_witness :
  (exists r s', RMSNorm.__call__ scaled_plus_one 0 row_scope = Ok (r, s'))
  <-> (t_shape row <> []
       /\ (RMSNorm.guard_against_excess_precision scaled_plus_one = true ->
           is_floating (t_dtype row) = true)
       /\ (RMSNorm.with_scale scaled_plus_one = true ->
           scale_available row_scope (t_shape row))).
Proof.
  exact (rmsnorm_returns_iff scaled_plus_one row_scope 0 row
           zeros_init_ok row_scope_ok eq_refl).
Defined.

Lemma rmsnorm_keeps_scope_in_order_witness :
  scope_ok (scaled_run_scope 3%R 4%R 0%R)
  /\ heap_wf (scaled_run_scope 3%R 4%R 0%R).
Proof.
  exact (rmsnorm_keeps_scope_in_order scaled_plus_one row_scope 0 row 9 _
           zeros_init_ok row_scope_ok row_scope_wf eq_refl
           (rmsnorm_scaled_run 3%R 4%R 0%R)).
Defined.

Lemma rmsnorm_scale_is_per_channel_witness :
  exists t' a v out,
    guarded scaled_plus_one row = Ok t'
    /\ params (scaled_run_scope 3%R 4%R 0%R) !! "scale" = Some a
    /\ heap (scaled_run_scope 3%R 4%R 0%R) !! a = Some v
    /\ t_shape v = [3]
    /\ heap (scaled_run_scope 3%R 4%R 0%R) !! 9 = Some out
    /\ t_shape out = [1] ++ [3]
    /\ t_data out
       = map (fun k => fmul (rms_element 3 (t_data t') k)
                            (scale_factor scaled_plus_one v (k mod 3)))
             (seq 0 (length (t_data row))).
Proof.
  exact (rmsnorm_scale_is_per_channel scaled_plus_one row_scope 0 row 9 _ [1] 3
           zeros_init_ok row_scope_ok row_scope_wf eq_refl eq_refl eq_refl
           (rmsnorm_scaled_run 3%R 4%R 0%R)).
Defined.

Lemma rmsnorm_guard_absorbs_reduce_precision_witness :
  match RMSNorm.__call__ guarded_plus_one 0 row_scope with
  | Ok (r, s') =>
      exists out r2 s2,
        heap s' !! r = Some out
        /\ RMSNorm.__call__ guarded_plus_one 1 (reduced_run_scope 3%R 4%R 0%R)
           = Ok (r2, s2)
        /\ heap s2 !! r2 = Some out
  | Err e =>
      RMSNorm.__call__ guarded_plus_one 1 (reduced_run_scope 3%R 4%R 0%R) = Err e
  end.
Proof.
  exact (rmsnorm_guard_absorbs_reduce_precision guarded_plus_one row_scope 0 row
           1 _ real_round_idempotent eq_refl row_scope_ok eq_refl
           (reduce_precision_run 3%R 4%R 0%R)).
Defined.

Lemma rmsnorm_result_dtype_witness :
  exists out,
    heap (scaled_run_scope 3%R 4%R 0%R) !! 9 = Some out
    /\ (RMSNorm.with_scale scaled_plus_one = false ->
        t_dtype out = weak_float_type (t_dtype row)
        /\ (is_floating (t_dtype row) = true -> t_dtype out = t_dtype row))
    /\ (RMSNorm.with_scale scaled_plus_one = true ->
        exists a v,
          params (scaled_run_scope 3%R 4%R 0%R) !! "scale" = Some a
          /\ heap (scaled_run_scope 3%R 4%R 0%R) !! a = Some v
          /\ (is_floating (t_dtype v) = true ->
              t_dtype out
              = promote_types (weak_float_type (t_dtype row)) (t_dtype v))).
Proof.
  exact (rmsnorm_result_dtype scaled_plus_one row_scope 0 row 9 _
           row_scope_ok eq_refl (rmsnorm_scaled_run 3%R 4%R 0%R)).
Defined.



Lemma einsum_keeps_scope_in_order_witness :
  scope_ok dot_scope_after /\ heap_wf dot_scope_after
  /\ exists out, heap dot_scope_after !! 3 = Some out /\ wf_tensor out.
Proof.
  exact (einsum_keeps_scope_in_order (with_multiplier dot_layer 2%R) "i,i->"
           dot_scope 0 (Tensor float32 [1] [1%R]) 3 _
           zeros_init_ok dot_scope_ok dot_scope_wf eq_refl
           (einsum_truthy_multiplier 1%R 1%R 2%R real_truthy_two)).
Defined.

(** * A scale of zeros, and the argument of the reciprocal square root *)

(** ** [RMSNorm] with a scale of zeros *)

Section ZeroScaleTheorems.
Context {F : Type} `{Scalar F}.
Implicit Types (s : scope F) (t n v : tensor F) (self : RMSNorm.config F).

Lemma zero_multiplier_data self rank v d :
  t_data v = replicate d fzero ->
  t_data (scale_multiplier self rank v) = replicate d (zero_scale_factor self).
Proof.
  intros Hv. unfold scale_multiplier, zero_scale_factor, expand_dims_t.
  destruct (RMSNorm.scale_plus_one self); cbn; rewrite Hv; [|done].
  apply map_replicate_const.
Qed.

Lemma zero_multiplier_dtype self rank v :
  is_floating (t_dtype v) = true ->
  t_dtype (scale_multiplier self rank v) = t_dtype v.
Proof.
  intros Hfl. unfold scale_multiplier.
  destruct (RMSNorm.scale_plus_one self); [|done].
  cbn. unfold weak_float_type. by rewrite Hfl.
Qed.

(** The array the layer returns when [scale] holds zeros: the normalized
    array with every element multiplied by the factor. *)
Lemma zero_scale_value self s t t' n :
  RMSNorm.with_scale self = true ->
  scale_is_zero self s (t_shape t) ->
  guarded self t = Ok t' ->
  rms_formula t' = Ok n ->
  exists d v,
    last (t_shape t) = Some d
    /\ param_value "scale" (RMSNorm.scale_init self) [d] None s = Ok v
    /\ rms_value self s t
       = Ok (Tensor (promote_types (t_dtype n)
                       (t_dtype (scale_multiplier self (length (t_shape t)) v)))
                    (t_shape t)
                    (map (fun a => fmul a (zero_scale_factor self)) (t_data n))).
Proof.
  intros Hws Hz Hg Hf.
  destruct (guarded_inv _ _ _ Hg) as [Hsh _].
  destruct (rms_formula_inv _ _ Hf) as (lead & d & Hlead & Hn & Hwf).
  rewrite Hsh in Hlead.
  assert (Hlast : last (t_shape t) = Some d) by (rewrite Hlead; apply last_snoc).
  destruct (Hz d Hlast) as (v & Hv & Hvs & Hvd).
  exists d, v. split; [done|]. split; [done|].
  unfold rms_value. rewrite Hg, Hf, Hws, Hsh, Hlast, Hv.
  rewrite Hlead at 1 2.
  rewrite Hlead.
  apply multiply_constant_row; [done|congruence| |].
  - by apply scale_multiplier_shape.
  - by apply zero_multiplier_data.
Qed.

Lemma guarded_same_guard self1 self0 t :
  RMSNorm.guard_against_excess_precision self1
  = RMSNorm.guard_against_excess_precision self0 ->
  guarded self1 t = guarded self0 t.
Proof. intros Hg. unfold guarded. by rewrite Hg. Qed.

Lemma tensor_eta n : Tensor (t_dtype n) (t_shape n) (t_data n) = n.
Proof. by destruct n. Qed.

Lemma map_id_ext (f : F -> F) (l : list F) :
  (forall a, f a = a) -> map f l = l.
Proof. intros Hf. induction l as [|a l IH]; [done|]. cbn. by rewrite Hf, IH. Qed.


(** C4, amended.  When the [scale] the layer finds or creates is a vector
    of zeros and [scale_plus_one] is off, every element of the result is
    the normalized element times zero, on the creating call and on every
    later one: the result is all zeros wherever that product is zero,
    which is every element whose normalized value is finite.  The call
    returns exactly when the normalization does. *)
Theorem rmsnorm_zero_scale_plain_multiplies_by_zero self s x t :
  RMSNorm.with_scale self = true ->
  RMSNorm.scale_plus_one self = false ->
  scope_ok s ->
  heap s !! x = Some t ->
  scale_is_zero self s (t_shape t) ->
  (forall r s',
      RMSNorm.__call__ self x s = Ok (r, s') ->
      exists t' n out,
        guarded self t = Ok t'
        /\ rms_formula t' = Ok n
        /\ heap s' !! r = Some out
        /\ t_shape out = t_shape t
        /\ t_data out = map (fun a => fmul a fzero) (t_data n)
        /\ (Forall (fun a => fmul a fzero = fzero) (t_data n) ->
            Forall (fun a => a = fzero) (t_data out)))
  /\ (t_shape t <> [] ->
      (RMSNorm.guard_against_excess_precision self = true ->
       is_floating (t_dtype t) = true) ->
      exists r s', RMSNorm.__call__ self x s = Ok (r, s')).
Proof.
  intros Hws Hp0 Hok Hx Hz. split.
  - intros r s' Hrun.
    destruct (rms_call_inv self s x t r s' Hok Hx Hrun)
      as (out & Hval & Hr & _).
    destruct (guarded self t) as [t'|e] eqn:Hg;
      [|unfold rms_value in Hval; by rewrite Hg in Hval].
    destruct (rms_formula t') as [n|e] eqn:Hf;
      [|unfold rms_value in Hval; by rewrite Hg, Hf in Hval].
    destruct (zero_scale_value self s t t' n Hws Hz Hg Hf)
      as (d & v & _ & _ & Hval').
    rewrite Hval' in Hval. injection Hval as <-.
    exists t', n. eexists. split; [done|]. split; [done|]. split; [exact Hr|].
    cbn [t_shape t_data]. unfold zero_scale_factor. rewrite Hp0.
    split; [done|]. split; [done|].
    intros Hall. apply Forall_forall. intros b Hb.
    apply list_elem_of_In, in_map_iff in Hb as (c & <- & Hc).
    rewrite Forall_forall in Hall. by apply Hall, list_elem_of_In.
  - intros Hne Hfl.
    destruct (guarded_defined self t Hfl) as [t' Hg].
    destruct (guarded_inv _ _ _ Hg) as [Hsh _].
    destruct (rms_formula_defined t') as [n Hf]; [by rewrite Hsh|].
    destruct (zero_scale_value self s t t' n Hws Hz Hg Hf)
      as (d & v & _ & _ & Hval).
    pose proof (rms_call_value self s x t Hok Hx) as Hc.
    rewrite Hval in Hc. destruct Hc as (r & s' & Hrun & _). by exists r, s'.
Qed.

(** A zero initializer and a missing parameter in a mutable collection, or
    a stored vector of zeros, make [scale_is_zero]. *)
Lemma zeros_init_scale_is_zero self s sh :
  RMSNorm.scale_init self = initializers.zeros_init ->
  params s !! "scale" = None ->
  is_mutable s = true ->
  scale_is_zero self s sh.
Proof.
  intros Hinit Hnone Hmut d _. unfold param_value. rewrite Hnone, Hmut, Hinit.
  eexists. split; [reflexivity|]. cbn. split; [done|]. f_equal. lia.
Qed.
End ZeroScaleTheorems.

(** ** The argument of [lax.rsqrt] *)

Section RsqrtArgument.
Context {F : Type} `{Scalar F} `{Ordered F}.
Implicit Types (s : scope F) (t n v : tensor F) (self : RMSNorm.config F).

Lemma fsum_number (l : list F) :
  order_laws F -> Forall nonneg_number l -> nonneg_number (fsum l).
Proof.
  intros Hl. induction 1 as [|a l [Ha1 Ha2] _ [IH1 IH2]].
  - apply (zero_number Hl).
  - by apply (add_nonneg Hl).
Qed.

Lemma squares_number (l : list F) :
  order_laws F ->
  Forall is_number l -> Forall nonneg_number (map (fun a : F => fmul a a) l).
Proof.
  intros Hl. induction 1 as [|a l Ha _ IH]; constructor; [|done].
  by apply (square_nonneg Hl).
Qed.

Lemma mean_number (d k : nat) (l : list F) :
  order_laws F -> 0 < d -> Forall is_number l ->
  nonneg_number
    (fdiv (fsum (take d (drop k (map (fun a : F => fmul a a) l)))) (of_nat d)).
Proof.
  intros Hl Hd Hnum.
  destruct (fsum_number (take d (drop k (map (fun a : F => fmul a a) l))) Hl)
    as [Hs1 Hs2].
  { by apply Forall_take, Forall_drop, squares_number. }
  by apply (div_count_nonneg Hl).
Qed.

Lemma guarded_number self t t' :
  order_laws F ->
  guarded self t = Ok t' -> Forall is_number (t_data t) ->
  Forall is_number (t_data t').
Proof.
  intros Hl. unfold guarded.
  destruct (RMSNorm.guard_against_excess_precision self);
    [|by intros [= <-]].
  destruct (jnp_finfo (t_dtype t)) as [fi|e]; [|done].
  intros [= <-] Hnum. cbn. induction Hnum as [|a l Ha _ IH]; constructor; [|done].
  by apply (round_number Hl).
Qed.

(** Every element of [mean(x^2) + 1e-06] is at least the value of the
    literal, and positive. *)
Lemma shifted_mean_lower t var :
  order_laws F ->
  Forall is_number (t_data t) ->
  (forall d, last (t_shape t) = Some d -> 0 < d) ->
  mean_last_t (square_t t) = Ok var ->
  Forall (fun a => fle (of_literal eps_literal) a /\ flt fzero a)
         (t_data (add_literal_t var eps_literal)).
Proof.
  intros Hl Hnum Hpos. unfold mean_last_t.
  cbn [square_t t_map t_shape t_data t_dtype].
  destruct (rev (t_shape t)) as [|d lead] eqn:Hr; [done|]. intros [= <-].
  assert (Hd : 0 < d).
  { apply Hpos. rewrite (shape_snoc _ _ _ Hr). apply last_snoc. }
  cbn [add_literal_t t_map t_data]. rewrite map_map.
  apply Forall_forall. intros a Ha.
  apply list_elem_of_In, in_map_iff in Ha as (i & <- & _).
  destruct (mean_number d (i * d) (t_data t) Hl Hd Hnum) as [Hm1 Hm2].
  assert (Hle : fle (of_literal eps_literal)
                    (fadd (fdiv (fsum (take d (drop (i * d)
                             (map (fun a : F => fmul a a) (t_data t)))))
                                (of_nat d)) (of_literal eps_literal)))
    by by apply (add_literal_lower Hl).
  split; [exact Hle|].
  eapply (lt_le_trans Hl); [apply (literal_positive Hl)|exact Hle].
Qed.

Lemma scale_tail_heap self sh n s r s' :
  scale_tail self sh n s = Ok (r, s') -> exists rest, heap s' = heap s ++ rest.
Proof.
  unfold scale_tail. destruct (last sh) as [d|]; [|done].
  rewrite param_as_value.
  destruct (param_value "scale" (RMSNorm.scale_init self) [d] None s)
    as [v|e]; [|done].
  assert (Hps : exists l, heap (param_scope "scale" v s) = heap s ++ l).
  { unfold param_scope. destruct (params s !! "scale").
    - exists []. by rewrite app_nil_r.
    - by eexists. }
  destruct Hps as [l Hps].
  destruct (heap (param_scope "scale" v s) !! param_addr "scale" s) as [w|];
    [|done].
  cbv zeta. destruct (multiply_t n _) as [out|e]; [|done].
  intros [= _ <-].
  destruct (RMSNorm.scale_plus_one self); cbn; rewrite Hps, <- !app_assoc;
    by eexists.
Qed.

End RsqrtArgument.

(** ** More concrete runs *)

Section MoreRuns.
Context {F : Type} `{Scalar F}.

Lemma rmsnorm_bfloat16_dtypes (a b c : F) :
  t_dtype <$> result_array
    (RMSNorm.__call__ (RMSNorm.Config false initializers.zeros_init true false)
                      0 (Scope [Tensor bfloat16 [1; 3] [a; b; c]] ∅ true 0))
  = Some bfloat16
  /\ t_dtype <$> result_array
       (RMSNorm.__call__ (RMSNorm.Config true initializers.zeros_init true false)
                         0 (Scope [Tensor bfloat16 [1; 3] [a; b; c]] ∅ true 0))
     = Some float32.
Proof. vm_compute. split; reflexivity. Qed.

Lemma rmsnorm_plain_single (a : F) :
  result_array
    (RMSNorm.__call__ (RMSNorm.Config true initializers.zeros_init false false)
                      0 (Scope [Tensor float32 [1; 1] [a]] ∅ true 0))
  = Some (Tensor float32 [1; 1]
            [fmul (fmul a (frsqrt (fadd (fdiv (fadd (fmul a a) fzero) (of_nat 1))
                                        (of_literal (1 # 1000000)))))
                  fzero]).
Proof. vm_compute. reflexivity. Qed.

Lemma stored_zero_scale (a b c : F) :
  param_value "scale" initializers.zeros_init [3] None (scaled_run_scope a b c)
  = Ok (Tensor float32 [3] [fzero; fzero; fzero]).
Proof. vm_compute. reflexivity. Qed.
End MoreRuns.

(** ** The theorems on a scale of zeros and on the argument of rsqrt, at
    concrete inputs *)

Lemma real_order_laws : order_laws R.
Proof.
  split.
  - split; [done|]. cbn. lra.
  - intros a _. split; [done|]. cbn. nra.
  - intros a b _ Ha _ Hb. split; [done|]. cbn in *. lra.
  - intros a n Hn _ Ha. split; [done|]. cbn in *.
    apply Rle_mult_inv_pos; [done|]. by apply lt_0_INR.
  - intros a _ Ha. cbn in *. lra.
  - rewrite real_eps. cbn. lra.
  - intros a b c. cbn. lra.
  - done.
Qed.

Lemma f32_eps : f32_round (1 # 1000000) = (8796093 # 8796093022208)%Q.
Proof. vm_compute. reflexivity. Qed.


(** C4 as stated fails on an input that holds a NaN: the normalized
    element is a NaN and so is its product with the zero scale. *)
Lemma rmsnorm_zero_scale_nan_counterexample :
  exists r s' out,
    @RMSNorm.__call__ (option R) nan_scalar nan_scaled_plain 0 nan_scope
    = Ok (r, s')
    /\ heap s' !! r = Some out
    /\ t_data out = [None]
    /\ ~ Forall (fun a => a = @fzero (option R) nan_scalar) (t_data out).
Proof.
  pose proof (@rmsnorm_plain_single (option R) nan_scalar None) as Hrun.
  change (Scope [Tensor float32 [1; 1] [None]] ∅ true 0) with nan_scope in Hrun.
  change (RMSNorm.Config true initializers.zeros_init false false)
    with nan_scaled_plain in Hrun.
  destruct (@RMSNorm.__call__ (option R) nan_scalar nan_scaled_plain 0 nan_scope)
    as [[r s']|e]; [|done].
  cbn [result_array] in Hrun.
  exists r, s'. eexists. split; [done|]. split; [exact Hrun|].
  split; [reflexivity|].
  intros Hall. apply Forall_cons in Hall as [Hhd _]. discriminate Hhd.
Qed.


Lemma scaled_run_scope_ok : scope_ok (scaled_run_scope 3%R 4%R 0%R).
Proof.
  destruct (rms_call_inv scaled_plus_one row_scope 0 row 9 _ row_scope_ok
              eq_refl (rmsnorm_scaled_run 3%R 4%R 0%R))
    as (out & _ & _ & _ & _ & _ & Hok & _).
  exact Hok.
Qed.

(** After a first call the stored [scale] is a vector of zeros. *)
Lemma stored_scale_is_zero :
  scale_is_zero scaled_plus_one (scaled_run_scope 3%R 4%R 0%R) (t_shape row).
Proof.
  intros d [= <-]. eexists.
  split; [exact (stored_zero_scale 3%R 4%R 0%R)|]. done.
Qed.

Lemma row_numbers : Forall is_number (t_data row).
Proof. by repeat constructor. Qed.

Lemma row_last_positive d : last (t_shape row) = Some d -> 0 < d.
Proof. intros [= <-]. lia. Qed.


Lemma rmsnorm_zero_scale_plain_multiplies_by_zero_witness :
  (forall r s',
      RMSNorm.__call__ scaled_plain 0 row_scope = Ok (r, s') ->
      exists t' n out,
        guarded scaled_plain row = Ok t'
        /\ rms_formula t' = Ok n
        /\ heap s' !! r = Some out
        /\ t_shape out = t_shape row
        /\ t_data out = map (fun a => fmul a fzero) (t_data n)
        /\ (Forall (fun a => fmul a fzero = fzero) (t_data n) ->
            Forall (fun a => a = fzero) (t_data out)))
  /\ (t_shape row <> [] ->
      (RMSNorm.guard_against_excess_precision scaled_plain = true ->
       is_floating (t_dtype row) = true) ->
      exists r s', RMSNorm.__call__ scaled_plain 0 row_scope = Ok (r, s')).
Proof.
  exact (rmsnorm_zero_scale_plain_multiplies_by_zero
           scaled_plain row_scope 0 row eq_refl eq_refl row_scope_ok eq_refl
           (zeros_init_scale_is_zero scaled_plain row_scope (t_shape row)
              eq_refl eq_refl eq_refl)).
Defined.

